(** * Data-table components: debounced search, filters, pagination, bulk actions

    A shallow embedding of the React components of the data-table package
    ([DataTableSearch], [TableFilters], [DataTableServerSide],
    [DataTableActionDialog]) as state machines over their hook state, and the
    properties of the package's specification that hold (or fail) on them. *)

From Stdlib Require Import ZArith Ascii String DecimalString.
From stdpp Require Import base option list strings gmap fin_maps.

Local Open Scope string_scope.
Local Open Scope list_scope.

(** ** JavaScript values shared by the components *)

Module JS.

(** [Record<string, V>]: a JavaScript object used as a dictionary.  The order
    of its own keys is observable ([Object.values], [Object.entries],
    [JSON.stringify]): canonical array indices first, in ascending numeric
    order, then all other string keys in insertion order. *)
Definition obj (V : Type) : Type := list (string * V).

Definition is_digit (c : ascii) : bool :=
  let n := nat_of_ascii c in (48 <=? n)%nat && (n <=? 57)%nat.

Fixpoint all_digits (s : string) : bool :=
  match s with
  | EmptyString => true
  | String c s' => is_digit c && all_digits s'
  end.

Fixpoint digits_value (acc : N) (s : string) : N :=
  match s with
  | EmptyString => acc
  | String c s' => digits_value (10 * acc + (N_of_ascii c - 48))%N s'
  end.

(** ECMAScript "array index": the canonical decimal form of an integer in
    [0, 2^32 - 2]. *)
Definition array_index (k : string) : option N :=
  match k with
  | EmptyString => None
  | String c rest =>
      if all_digits k
         && (negb (Ascii.eqb c "0"%char) || String.eqb rest EmptyString)
         && (String.length k <=? 10)%nat
         && (digits_value 0 k <? 4294967295)%N
      then Some (digits_value 0 k)
      else None
  end.

Section Objects.
Context {V : Type}.

Fixpoint get (k : string) (o : obj V) : option V :=
  match o with
  | [] => None
  | (k', v) :: o' => if String.eqb k k' then Some v else get k o'
  end.

Definition has (k : string) (o : obj V) : bool :=
  match get k o with Some _ => true | None => false end.

(** Overwrite the value of a key that is already present; the key keeps
    its place. *)
Fixpoint replace (k : string) (v : V) (o : obj V) : obj V :=
  match o with
  | [] => []
  | (k', v') :: o' =>
      if String.eqb k k' then (k', v) :: o' else (k', v') :: replace k v o'
  end.

(** Create an array-index key [k] (of value [n]): it goes before the first
    key that is not an array index or is a larger one. *)
Fixpoint place_index (n : N) (k : string) (v : V) (o : obj V) : obj V :=
  match o with
  | [] => [(k, v)]
  | (k', v') :: o' =>
      match array_index k' with
      | Some n' =>
          if (n <? n')%N then (k, v) :: o
          else (k', v') :: place_index n k v o'
      | None => (k, v) :: o
      end
  end.

(** [o[k] = v] *)
Definition set (k : string) (v : V) (o : obj V) : obj V :=
  if has k o then replace k v o
  else match array_index k with
       | Some n => place_index n k v o
       | None => o ++ [(k, v)]
       end.

(** [delete o[k]] *)
Definition del (k : string) (o : obj V) : obj V :=
  List.filter (fun kv => negb (String.eqb k kv.1)) o.

(** [{ ...a, ...b }] *)
Definition spread (a b : obj V) : obj V :=
  fold_left (fun acc kv => set kv.1 kv.2 acc) b a.

Definition keys (o : obj V) : list string := map fst o.
Definition values (o : obj V) : list V := map snd o.

(** The object read as a finite mapping, forgetting the key order. *)
Definition to_map (o : obj V) : gmap string V := list_to_map o.
End Objects.

(** [Array.prototype.find] *)
Fixpoint find {A : Type} (p : A -> bool) (l : list A) : option A :=
  match l with
  | [] => None
  | x :: l' => if p x then Some x else find p l'
  end.

(** [Array.prototype.includes] on an array of indexes. *)
Definition includes (i : nat) (l : list nat) : bool :=
  existsb (Nat.eqb i) l.

(** [arr.filter((_, index) => p(index))] *)
Fixpoint filter_index {A : Type} (p : nat -> bool) (i : nat) (l : list A)
  : list A :=
  match l with
  | [] => []
  | x :: l' =>
      if p i then x :: filter_index p (S i) l' else filter_index p (S i) l'
  end.

(** White space removed by [String.prototype.trim] (the code units below
    U+0100: TAB, LF, VT, FF, CR, SPACE and NBSP). *)
Definition is_space (c : ascii) : bool :=
  let n := nat_of_ascii c in
  ((9 <=? n)%nat && (n <=? 13)%nat) || (n =? 32)%nat || (n =? 160)%nat.

Fixpoint blank (s : string) : bool :=
  match s with
  | EmptyString => true
  | String c s' => is_space c && blank s'
  end.

(** [value.trim()] is not the empty string. *)
Definition trim_nonempty (s : string) : bool := negb (blank s).

(** JavaScript truthiness of a string. *)
Definition truthy (s : string) : bool :=
  match s with EmptyString => false | _ => true end.

(** The names every plain object inherits from [Object.prototype]. *)
Definition object_prototype_names : list string :=
  ["constructor"; "__proto__"; "hasOwnProperty"; "isPrototypeOf";
   "propertyIsEnumerable"; "toLocaleString"; "toString"; "valueOf";
   "__defineGetter__"; "__defineSetter__"; "__lookupGetter__";
   "__lookupSetter__"].

Definition inherited (k : string) : bool :=
  existsb (String.eqb k) object_prototype_names.

(** What the read [o[k]] of a plain object gives: the value of its own key, a
    member of [Object.prototype] when the object has no such key and the name
    is an inherited one, or [undefined]. *)
Inductive Read (V : Type) : Type :=
| Own (v : V)
| Member (name : string)
| Undefined.
Arguments Own {V} v.
Arguments Member {V} name.
Arguments Undefined {V}.

Definition read {V : Type} (k : string) (o : obj V) : Read V :=
  match get k o with
  | Some v => Own v
  | None => if inherited k then Member k else Undefined
  end.

(** The assignment [o[k] = v] of a string [v].  It differs from defining the
    key in one case: an object without an own key [__proto__] passes that
    name to the setter of [Object.prototype], which ignores a value that is
    not an object, so nothing is stored. *)
Definition assign (k v : string) (o : obj string) : obj string :=
  if String.eqb k "__proto__" && negb (has k o) then o else set k v o.

(** The last character of a string, if it has one. *)
Fixpoint last_char (s : string) : option ascii :=
  match s with
  | EmptyString => None
  | String c EmptyString => Some c
  | String _ s' => last_char s'
  end.

End JS.

(** ** The debounced value propagator ([useDebounce]) *)

Module Debounce.

Section Propagator.
Context {V : Type}.

(** Modelled from the spec: the hook [useDebounce] of
    [@/hooks/use-debounce] is not among the sources.  Section 4.1: a
    propagator holds a quiescence window fixed at construction, the stable
    value, and at most one countdown carrying the pending value. *)
Record t : Type := mk {
  window : nat;
  stable : V;
  pending : option (V * nat)
}.

(** Modelled from the spec: construction with the initial snapshot; no
    countdown is in flight. *)
Definition create (w : nat) (init : V) : t :=
  {| window := w; stable := init; pending := None |}.

(** Modelled from the spec: [observe(value)] records the pending value and
    (re)starts the countdown, cancelling the one in flight; equal values
    are not short-circuited. *)
Definition observe (v : V) (p : t) : t :=
  {| window := window p; stable := stable p;
     pending := Some (v, window p) |}.

(** Modelled from the spec: [currentStable()]. *)
Definition currentStable (p : t) : V := stable p.

(** Modelled from the spec: teardown cancels the countdown in flight. *)
Definition teardown (p : t) : t :=
  {| window := window p; stable := stable p; pending := None |}.

(** Modelled from the spec: [dt] time units pass.  The countdown that
    survives a whole window promotes its value to stable and notifies the
    consumer (the boolean). *)
Definition advance (dt : nat) (p : t) : t * bool :=
  match pending p with
  | None => (p, false)
  | Some (v, r) =>
      if (r <=? dt)%nat
      then ({| window := window p; stable := v; pending := None |}, true)
      else ({| window := window p; stable := stable p;
               pending := Some (v, r - dt) |}, false)
  end.

(** The countdown in flight, if any, runs out. *)
Definition fire (p : t) : t * bool :=
  match pending p with
  | None => (p, false)
  | Some (_, r) => advance r p
  end.
End Propagator.

Arguments t : clear implicits.

(** Modelled from the spec: the default quiescence window. *)
Definition default_window : nat := 300.

End Debounce.

(** ** [DataTableSearch] *)

Module Search.

Record SearchColumn : Type := { column : string; label : string }.

(** The props of [DataTableSearch].  [onSearchChange] tells whether the
    callback was supplied (server-side search); [tableColumns] are the ids
    for which [table.getColumn] finds a column. *)
Record Props : Type := {
  tableColumns : list string;
  searchColumns : list SearchColumn;
  onSearchChange : bool;
  searchValue : string
}.

(** The hook state of one mounted instance. *)
Record State : Type := {
  searchFilters : JS.obj string;
  activeSelectedIndexes : list nat;
  globalSearch : string;
  debouncedSearchFilters : Debounce.t (JS.obj string)
}.

(** What the component does to its collaborators. *)
Inductive Output : Type :=
| OnSearchChange (search : string) (columns : list string)
| SetFilterValue (columnId : string) (value : string).

Inductive Event : Type :=
| HandleSearchFilter (columnId : string) (value : string)
| HandleClearSearch
| HandleCheckboxChange (index : nat)
| SearchValueProp (value : string)
| Advance (dt : nat).

Definition activeColumns (P : Props) (active : list nat) : list string :=
  map column
      (JS.filter_index (fun index => JS.includes index active) 0
                       (searchColumns P)).

(** The first search value that is not blank, or the empty string. *)
Definition firstSearchValue (filters : JS.obj string) : string :=
  default EmptyString (JS.find JS.trim_nonempty (JS.values filters)).

Definition setFilterValue (P : Props) (columnId value : string)
  : list Output :=
  if existsb (String.eqb columnId) (tableColumns P)
  then [SetFilterValue columnId value] else [].

(** The effect with dependencies
    [debouncedSearchFilters, activeSelectedIndexes]. *)
Definition searchEffect (P : Props) (s : State) : list Output :=
  let debounced := Debounce.currentStable (debouncedSearchFilters s) in
  if onSearchChange P then
    [OnSearchChange (firstSearchValue debounced)
                    (activeColumns P (activeSelectedIndexes s))]
  else
    flat_map (fun kv => setFilterValue P kv.1 kv.2) debounced.

Definition initial (P : Props) : State :=
  {| searchFilters := [];
     activeSelectedIndexes := [0];
     globalSearch := searchValue P;
     debouncedSearchFilters := Debounce.create Debounce.default_window [] |}.

(** First render: every effect runs once. *)
Definition mount (P : Props) : State * list Output :=
  (initial P, searchEffect P (initial P)).

Definition handleSearchFilter (columnId value : string) (s : State) : State :=
  let filters := JS.set columnId value (searchFilters s) in
  {| searchFilters := filters;
     activeSelectedIndexes := activeSelectedIndexes s;
     globalSearch := globalSearch s;
     debouncedSearchFilters :=
       Debounce.observe filters (debouncedSearchFilters s) |}.

Definition handleClearSearch (P : Props) (s : State) : State * list Output :=
  ({| searchFilters := [];
      activeSelectedIndexes := activeSelectedIndexes s;
      globalSearch := EmptyString;
      debouncedSearchFilters :=
        Debounce.observe [] (debouncedSearchFilters s) |},
   if onSearchChange P then [OnSearchChange EmptyString []]
   else flat_map (fun c => setFilterValue P (column c) EmptyString)
                 (searchColumns P)).

Definition handleCheckboxChange (index : nat) (prev : list nat) : list nat :=
  if JS.includes index prev
  then List.filter (fun i => negb (Nat.eqb i index)) prev
  else prev ++ [index].

Definition step (P : Props) (s : State) (ev : Event) : State * list Output :=
  match ev with
  | HandleSearchFilter columnId value =>
      (handleSearchFilter columnId value s, [])
  | HandleClearSearch => handleClearSearch P s
  | HandleCheckboxChange index =>
      let s' :=
        {| searchFilters := searchFilters s;
           activeSelectedIndexes :=
             handleCheckboxChange index (activeSelectedIndexes s);
           globalSearch := globalSearch s;
           debouncedSearchFilters := debouncedSearchFilters s |} in
      (s', searchEffect P s')
  | SearchValueProp value =>
      ({| searchFilters := searchFilters s;
          activeSelectedIndexes := activeSelectedIndexes s;
          globalSearch := value;
          debouncedSearchFilters := debouncedSearchFilters s |}, [])
  | Advance dt =>
      let '(d, notified) := Debounce.advance dt (debouncedSearchFilters s) in
      let s' :=
        {| searchFilters := searchFilters s;
           activeSelectedIndexes := activeSelectedIndexes s;
           globalSearch := globalSearch s;
           debouncedSearchFilters := d |} in
      (s', if notified then searchEffect P s' else [])
  end.

Fixpoint run (P : Props) (s : State) (evs : list Event)
  : State * list Output :=
  match evs with
  | [] => (s, [])
  | ev :: evs' =>
      let '(s1, out1) := step P s ev in
      let '(s2, out2) := run P s1 evs' in
      (s2, out1 ++ out2)
  end.

(** A mounted instance driven by [evs]. *)
Definition session (P : Props) (evs : list Event) : State * list Output :=
  let '(s0, out0) := mount P in
  let '(s, out) := run P s0 evs in
  (s, out0 ++ out).

(** The debounce is settled when no countdown is in flight: the stable
    value is the latest value of the search filters. *)
Definition settled (s : State) : Prop :=
  Debounce.pending (debouncedSearchFilters s) = None.

(** An event's search emissions are gated by the debounce when they are made
    with the debounce settled, before the event or by it. *)
Definition gated (P : Props) (s : State) (ev : Event) : Prop :=
  (step P s ev).2 = [] \/ settled s \/ settled (step P s ev).1.

(** Every emission of every session is gated by the debounce. *)
Definition every_emission_gated (P : Props) : Prop :=
  forall (evs : list Event) (ev : Event), gated P (session P evs).1 ev.

(** A burst of edits: each edit is followed by [dt] idle time units. *)
Definition burst (edits : list (string * string * nat)) : list Event :=
  flat_map (fun e => [HandleSearchFilter e.1.1 e.1.2; Advance e.2]) edits.

End Search.

(** ** [JSON.stringify] and [Date] as used by [TableFilters] *)

Module Json.

Definition dquote : ascii := ascii_of_nat 34.
Definition backslash : ascii := ascii_of_nat 92.

Definition hex_digit (n : nat) : ascii :=
  if (n <? 10)%nat then ascii_of_nat (48 + n) else ascii_of_nat (87 + n).

(** One code unit inside a JSON string literal (QuoteJSONString). *)
Definition escape_char (c : ascii) : string :=
  let n := nat_of_ascii c in
  if (n =? 8)%nat then "\b"
  else if (n =? 9)%nat then "\t"
  else if (n =? 10)%nat then "\n"
  else if (n =? 12)%nat then "\f"
  else if (n =? 13)%nat then "\r"
  else if (n =? 34)%nat then String backslash (String dquote EmptyString)
  else if (n =? 92)%nat then String backslash (String backslash EmptyString)
  else if (n <? 32)%nat then
    "\u00" +:+ String (hex_digit (n / 16))
                      (String (hex_digit (n mod 16)) EmptyString)
  else String c EmptyString.

Fixpoint escape (s : string) : string :=
  match s with
  | EmptyString => EmptyString
  | String c s' => escape_char c +:+ escape s'
  end.

Definition quote (s : string) : string :=
  String dquote (escape s +:+ String dquote EmptyString).

Definition member (kv : string * string) : string :=
  quote kv.1 +:+ ":" +:+ quote kv.2.

Fixpoint members (o : JS.obj string) : string :=
  match o with
  | [] => EmptyString
  | [kv] => member kv
  | kv :: o' => member kv +:+ "," +:+ members o'
  end.

(** [JSON.stringify(o)] for an object whose values are strings. *)
Definition stringify (o : JS.obj string) : string :=
  "{" +:+ members o +:+ "}".

End Json.

Module Date.

(** A [Date] as [toLocaleDateString] reads it: the calendar fields of the
    instant in the local time zone (the year is the astronomical one, 0 for
    1 BC), or the invalid date ([new Date(NaN)]). *)
Inductive t : Type :=
| Invalid
| Local (year : Z) (month day : N).

Definition decimal (n : N) : string :=
  NilZero.string_of_uint (N.to_uint n).

Definition two_digit (n : N) : string :=
  if (n <? 10)%N then "0" +:+ decimal n else decimal n.

(** The year of the era: years up to 0 count backwards from 1 BC. *)
Definition year_of_era (y : Z) : N :=
  Z.to_N (if (y <=? 0)%Z then 1 - y else y).

(** Modelled from the spec: [toLocaleDateString("en-CA")] is the formatter of
    the JavaScript runtime, not code of this repository; section 6 names its
    result a calendar date in a fixed, locale-independent form.  It is
    modelled by the date pattern [y-MM-dd] of the locale [en-CA], whatever
    the locale of the user: the year of the era without padding, the month
    and the day on two digits; the invalid date gives [Invalid Date]. *)
Definition toLocaleDateString_enCA (d : t) : string :=
  match d with
  | Invalid => "Invalid Date"
  | Local y m dd =>
      decimal (year_of_era y) +:+ "-" +:+ two_digit m +:+ "-" +:+ two_digit dd
  end.

(** A civil date with a four-digit year. *)
Definition four_digit_year (d : t) : Prop :=
  match d with
  | Invalid => False
  | Local y m dd =>
      (1000 <= y <= 9999)%Z /\ (1 <= m <= 12 /\ 1 <= dd <= 31)%N
  end.

Definition is_dash (c : ascii) : bool := Ascii.eqb c "-"%char.

(** The form [YYYY-MM-DD]: ten characters, digits around two dashes. *)
Definition is_YYYY_MM_DD (s : string) : bool :=
  match list_ascii_of_string s with
  | [y1; y2; y3; y4; s1; m1; m2; s2; d1; d2] =>
      forallb JS.is_digit [y1; y2; y3; y4; m1; m2; d1; d2]
      && is_dash s1 && is_dash s2
  | _ => false
  end.

(** Four digits; two digits. *)
Definition four_digits (s : string) : bool :=
  match s with
  | String a (String b (String c (String d EmptyString))) =>
      forallb JS.is_digit [a; b; c; d]
  | _ => false
  end.

Definition two_digits (s : string) : bool :=
  match s with
  | String a (String b EmptyString) => forallb JS.is_digit [a; b]
  | _ => false
  end.

End Date.

(** ** [TableFilters] *)

Module Filters.

Record DateRange : Type := { from : option Date.t; to : option Date.t }.

(** The props of [TableFilters] that its logic reads.  [onFiltersChange]
    tells whether the callback was supplied. *)
Record Props : Type := {
  tableColumns : list string;
  onFiltersChange : bool
}.

Record State : Type := {
  localFilterValues : JS.obj string;
  localDateRangeValues : JS.obj DateRange;
  isUpdatingRef : bool;
  previousFiltersRef : string;
  debouncedFilterValues : Debounce.t (JS.obj string);
  debouncedDateRangeValues : Debounce.t (JS.obj DateRange);
  (** the callbacks handed to [setTimeout(..., 0)] that have not run yet,
      each with the [allFilters] it closes over, oldest first *)
  timeouts : list (JS.obj string)
}.

Inductive Output : Type :=
| OnFiltersChange (filters : JS.obj string)
| SetFilterValue (columnId : string) (value : string).

(** The [value] argument of [handleFilterChange]: [string | string[]]. *)
Inductive ComboValue : Type :=
| One (value : string)
| Many (values : list string).

Inductive Event : Type :=
| HandleFilterChange (filterColumn : string) (value : ComboValue)
| HandleDateRangeChange (filterColumn : string) (range : DateRange)
| FilterValuesSettle      (* the countdown of [debouncedFilterValues] ends *)
| DateRangeValuesSettle   (* the countdown of [debouncedDateRangeValues] ends *)
| RunTimeout              (* the oldest [setTimeout(..., 0)] callback runs *)
| ParentRender.           (* a new [onFiltersChange] closure is passed *)

Definition with_refs (s : State) (updating : bool) (previous : string)
           (pendingTimeouts : list (JS.obj string)) : State :=
  {| localFilterValues := localFilterValues s;
     localDateRangeValues := localDateRangeValues s;
     isUpdatingRef := updating;
     previousFiltersRef := previous;
     debouncedFilterValues := debouncedFilterValues s;
     debouncedDateRangeValues := debouncedDateRangeValues s;
     timeouts := pendingTimeouts |}.

(** The callback of the [forEach] over the entries of the debounced date
    ranges: a range with both bounds writes its two keys into [dateFilters]. *)
Definition dateEntry (acc : JS.obj string) (entry : string * DateRange)
  : JS.obj string :=
  match from entry.2, to entry.2 with
  | Some f, Some t =>
      JS.set (entry.1 +:+ "End") (Date.toLocaleDateString_enCA t)
        (JS.set (entry.1 +:+ "Start") (Date.toLocaleDateString_enCA f) acc)
  | _, _ => acc
  end.

Definition dateFilters (ranges : JS.obj DateRange) : JS.obj string :=
  fold_left dateEntry ranges [].

Definition allFilters (s : State) : JS.obj string :=
  JS.spread (Debounce.currentStable (debouncedFilterValues s))
            (dateFilters (Debounce.currentStable (debouncedDateRangeValues s))).

Definition handleFiltersUpdate (P : Props) (s : State) : State :=
  if negb (onFiltersChange P) || isUpdatingRef s then s
  else
    let filtersString := Json.stringify (allFilters s) in
    if negb (String.eqb filtersString (previousFiltersRef s))
    then with_refs s true filtersString (timeouts s ++ [allFilters s])
    else s.

Definition stringValue (value : ComboValue) : string :=
  match value with
  | One v => v
  | Many [] => EmptyString
  | Many (v :: _) => if JS.truthy v then v else EmptyString
  end.

Definition handleFilterChange (P : Props) (filterColumn : string)
           (value : ComboValue) (s : State) : State * list Output :=
  let v := stringValue value in
  if onFiltersChange P then
    let newFilters :=
      if JS.truthy v then JS.assign filterColumn v (localFilterValues s)
      else JS.del filterColumn (localFilterValues s) in
    ({| localFilterValues := newFilters;
        localDateRangeValues := localDateRangeValues s;
        isUpdatingRef := isUpdatingRef s;
        previousFiltersRef := previousFiltersRef s;
        debouncedFilterValues :=
          Debounce.observe newFilters (debouncedFilterValues s);
        debouncedDateRangeValues := debouncedDateRangeValues s;
        timeouts := timeouts s |}, [])
  else
    (s, if existsb (String.eqb filterColumn) (tableColumns P)
        then [SetFilterValue filterColumn v] else []).

Definition handleDateRangeChange (P : Props) (filterColumn : string)
           (range : DateRange) (s : State) : State :=
  if onFiltersChange P then
    let newRanges := JS.set filterColumn range (localDateRangeValues s) in
    {| localFilterValues := localFilterValues s;
       localDateRangeValues := newRanges;
       isUpdatingRef := isUpdatingRef s;
       previousFiltersRef := previousFiltersRef s;
       debouncedFilterValues := debouncedFilterValues s;
       debouncedDateRangeValues :=
         Debounce.observe newRanges (debouncedDateRangeValues s);
       timeouts := timeouts s |}
  else s.

Definition initial : State :=
  {| localFilterValues := [];
     localDateRangeValues := [];
     isUpdatingRef := false;
     previousFiltersRef := EmptyString;
     debouncedFilterValues := Debounce.create Debounce.default_window [];
     debouncedDateRangeValues := Debounce.create Debounce.default_window [];
     timeouts := [] |}.

(** First render: the effect calls [handleFiltersUpdate]. *)
Definition mount (P : Props) : State := handleFiltersUpdate P initial.

Definition step (P : Props) (s : State) (ev : Event) : State * list Output :=
  match ev with
  | HandleFilterChange filterColumn value =>
      handleFilterChange P filterColumn value s
  | HandleDateRangeChange filterColumn range =>
      (handleDateRangeChange P filterColumn range s, [])
  | FilterValuesSettle =>
      let '(d, notified) := Debounce.fire (debouncedFilterValues s) in
      let s' :=
        {| localFilterValues := localFilterValues s;
           localDateRangeValues := localDateRangeValues s;
           isUpdatingRef := isUpdatingRef s;
           previousFiltersRef := previousFiltersRef s;
           debouncedFilterValues := d;
           debouncedDateRangeValues := debouncedDateRangeValues s;
           timeouts := timeouts s |} in
      (if notified then handleFiltersUpdate P s' else s', [])
  | DateRangeValuesSettle =>
      let '(d, notified) := Debounce.fire (debouncedDateRangeValues s) in
      let s' :=
        {| localFilterValues := localFilterValues s;
           localDateRangeValues := localDateRangeValues s;
           isUpdatingRef := isUpdatingRef s;
           previousFiltersRef := previousFiltersRef s;
           debouncedFilterValues := debouncedFilterValues s;
           debouncedDateRangeValues := d;
           timeouts := timeouts s |} in
      (if notified then handleFiltersUpdate P s' else s', [])
  | RunTimeout =>
      match timeouts s with
      | [] => (s, [])
      | filters :: rest =>
          (with_refs s false (previousFiltersRef s) rest,
           [OnFiltersChange filters])
      end
  | ParentRender => (handleFiltersUpdate P s, [])
  end.

Fixpoint run (P : Props) (s : State) (evs : list Event)
  : State * list Output :=
  match evs with
  | [] => (s, [])
  | ev :: evs' =>
      let '(s1, out1) := step P s ev in
      let '(s2, out2) := run P s1 evs' in
      (s2, out1 ++ out2)
  end.

(** A mounted instance driven by [evs]. *)
Definition session (P : Props) (evs : list Event) : State * list Output :=
  run P (mount P) evs.

(** The mappings passed to [onFiltersChange], in order. *)
Definition emissions (out : list Output) : list (JS.obj string) :=
  flat_map (fun o => match o with
                     | OnFiltersChange f => [f]
                     | SetFilterValue _ _ => []
                     end) out.

(** No two successive elements of [l] are related by [R]. *)
Fixpoint no_successive {A : Type} (R : A -> A -> Prop) (l : list A) : Prop :=
  match l with
  | x :: (y :: _) as l' => ~ R x y /\ no_successive R l'
  | _ => True
  end.

(** Equality of two emitted objects as filter mappings. *)
Definition same_mapping (a b : JS.obj string) : Prop :=
  JS.to_map a = JS.to_map b.

(** Equality of what [handleFiltersUpdate] compares. *)
Definition same_serialisation (a b : JS.obj string) : Prop :=
  Json.stringify a = Json.stringify b.

(** No two successive calls of [onFiltersChange] are given equal filter
    mappings. *)
Definition never_equal_twice (P : Props) : Prop :=
  forall evs : list Event,
    no_successive same_mapping (emissions (session P evs).2).

(** What has been emitted ([emitted]) and what is waiting in a timeout never
    repeats a serialisation twice running, and the last of them is the one
    [previousFiltersRef] remembers. *)
Definition schedule_invariant (emitted : list (JS.obj string)) (s : State)
  : Prop :=
  no_successive same_serialisation (emitted ++ timeouts s)
  /\ forall x, last (emitted ++ timeouts s) = Some x ->
               Json.stringify x = previousFiltersRef s.

(** The user picks the range [f .. t] for column [c] in a freshly mounted
    filter bar and waits. *)
Definition pick_date_range (c : string) (f t : Date.t) : list Event :=
  [RunTimeout;
   HandleDateRangeChange c {| from := Some f; to := Some t |};
   DateRangeValuesSettle;
   RunTimeout].

(** Whatever range is picked in a fresh filter bar, every value passed to
    [onFiltersChange] has the form [YYYY-MM-DD]. *)
Definition emitted_in_iso_form (P : Props) : Prop :=
  forall (c : string) (f t : Date.t) (filters : JS.obj string)
         (key value : string),
    In filters (emissions (session P (pick_date_range c f t)).2) ->
    In (key, value) filters ->
    Date.is_YYYY_MM_DD value = true.

(** The keys of the date ranges are distinct, in the local state, in the
    stable value of their debounce and in its pending value. *)
Definition ranges_distinct (s : State) : Prop :=
  NoDup (JS.keys (localDateRangeValues s))
  /\ NoDup (JS.keys (Debounce.stable (debouncedDateRangeValues s)))
  /\ forall v r, Debounce.pending (debouncedDateRangeValues s) = Some (v, r) ->
                 NoDup (JS.keys v).

End Filters.

(** ** JavaScript numbers with an integer value *)

Module JSNumber.

(** The IEEE-754 double nearest to the integer [z], ties to the even
    significand (no overflow below [2^1024]). *)
Definition round_double (z : Z) : Z :=
  (let a := Z.abs z in
   let bits := Z.log2 a + 1 in
   if bits <=? 53 then z
   else
     let shift := bits - 53 in
     let q := Z.shiftr a shift in
     let r := a - Z.shiftl q shift in
     let half := Z.shiftl 1 (shift - 1) in
     let q' := if r <? half then q
               else if half <? r then q + 1
                    else if Z.even q then q else q + 1 in
     Z.sgn z * Z.shiftl q' shift)%Z.

(** An integer that is a number: it is its own nearest double. *)
Definition is_double (z : Z) : Prop := round_double z = z.

(** [x - y] on numbers with an integer value. *)
Definition sub (x y : Z) : Z := round_double (x - y)%Z.

(** The largest integer up to which every integer is a number. *)
Definition two_53 : Z := (2 ^ 53)%Z.

End JSNumber.

(** ** [DataTableServerSide] *)

Module ServerSide.

(** [ServerSidePagination], the descriptor supplied by the caller. *)
Module Descriptor.
Record t : Type := {
  page : Z;
  pageSize : Z;
  totalItems : Z;
  totalPages : Z;
  hasNextPage : bool;
  hasPreviousPage : bool
}.

Definition with_page (p : Z) (d : t) : t :=
  {| page := p; pageSize := pageSize d; totalItems := totalItems d;
     totalPages := totalPages d; hasNextPage := hasNextPage d;
     hasPreviousPage := hasPreviousPage d |}.
End Descriptor.

(** [PaginationState] and [ColumnSort] of the table library. *)
Record PaginationState : Type := { pageIndex : Z; pageSize : Z }.
Record ColumnSort : Type := { id : string; desc : bool }.
Definition SortingState : Type := list ColumnSort.

(** [Updater<T>]: a new value or a function of the old one. *)
Inductive Updater (T : Type) : Type :=
| NewValue (v : T)
| FromOld (f : T -> T).
Arguments NewValue {T} v.
Arguments FromOld {T} f.

Definition apply_updater {T : Type} (u : Updater T) (old : T) : T :=
  match u with
  | NewValue v => v
  | FromOld f => f old
  end.

(** An updater of the pagination receives a reference to the object it is
    given and may write to it: a function updater returns its result and
    the final content of its argument. *)
Inductive PaginationUpdater : Type :=
| NewPagination (v : PaginationState)
| FromOldPagination (f : PaginationState -> PaginationState * PaginationState).

(** The objects on the heap that pagination touches, and references to
    them. *)
Inductive HeapObject : Type :=
| ODescriptor (d : Descriptor.t)
| OPaginationState (p : PaginationState).

Abbreviation ref := nat (only parsing).

Definition alloc (o : HeapObject) (h : gmap nat HeapObject)
  : ref * gmap nat HeapObject :=
  let l := fresh (dom h) in (l, <[l := o]> h).

Record Props : Type := {
  pagination : ref;
  searchColumns : list Search.SearchColumn;
  onSortingChange : bool;
  onSearchChange : bool;
  onFiltersChange : bool;
  sorting : SortingState;
  searchValue : string
}.

Record World : Type := {
  heap : gmap nat HeapObject;
  internalSorting : SortingState;
  rowSelection : gmap string bool
}.

Inductive Emission : Type :=
| OnPaginationChange (p : PaginationState)
| OnSortingChange (s : SortingState)
| OnSearchChange (search : string) (columns : list string)
| OnFiltersChange (filters : JS.obj string).

Inductive Event : Type :=
| Render
| TableSortingChange (updater : Updater SortingState)
| TablePaginationChange (updater : PaginationUpdater)
| TableRowSelectionChange (updater : Updater (gmap string bool))
| SearchChange (value : string)
| FiltersChange (newFilters : JS.obj string).

Definition descriptor (P : Props) (w : World) : option Descriptor.t :=
  match heap w !! pagination P with
  | Some (ODescriptor d) => Some d
  | _ => None
  end.

(** [{ pageIndex: pagination.page - 1, pageSize: pagination.pageSize }] *)
Definition tablePagination (d : Descriptor.t) : PaginationState :=
  {| pageIndex := JSNumber.sub (Descriptor.page d) 1;
     pageSize := Descriptor.pageSize d |}.

(** The table is on the zero-based index [p - 1] for every page [p >= 1]. *)
Definition zero_based_for_every_page : Prop :=
  forall d : Descriptor.t,
    JSNumber.is_double (Descriptor.page d) ->
    (1 <= Descriptor.page d)%Z ->
    pageIndex (tablePagination d) = (Descriptor.page d - 1)%Z.

Definition with_heap (w : World) (h : gmap nat HeapObject) : World :=
  {| heap := h; internalSorting := internalSorting w;
     rowSelection := rowSelection w |}.

(** The options object handed to [useReactTable] at each render. *)
Record TableOptions : Type := {
  pageCount : Z;
  state_sorting : SortingState;
  state_pagination : ref;
  state_rowSelection : gmap string bool;
  manualPagination : bool;
  manualSorting : bool
}.

Definition tableOptions (P : Props) (w : World)
  : option (TableOptions * World) :=
  match descriptor P w with
  | None => None
  | Some d =>
      let '(l, h) := alloc (OPaginationState (tablePagination d)) (heap w) in
      Some ({| pageCount := Descriptor.totalPages d;
               state_sorting := internalSorting w;
               state_pagination := l;
               state_rowSelection := rowSelection w;
               manualPagination := true;
               manualSorting := true |},
            with_heap w h)
  end.

(** The request emitted for [newPagination]. *)
Definition request (newPagination : PaginationState) : Emission :=
  OnPaginationChange {| pageIndex := pageIndex newPagination;
                        pageSize := pageSize newPagination |}.

(** The table's [onPaginationChange] option. *)
Definition onPaginationChange (P : Props) (updater : PaginationUpdater)
           (w : World) : option (World * list Emission) :=
  match descriptor P w with
  | None => None
  | Some d =>
      let '(currentPagination, h) :=
        alloc (OPaginationState (tablePagination d)) (heap w) in
      match updater with
      | NewPagination v => Some (with_heap w h, [request v])
      | FromOldPagination f =>
          let '(newPagination, written) := f (tablePagination d) in
          Some (with_heap w
                  (<[currentPagination := OPaginationState written]> h),
                [request newPagination])
      end
  end.

(** [handleSearchChange = (value: string) => ...]: whatever else the search
    box passes is dropped. *)
Definition handleSearchChange (P : Props) (value : string) : list Emission :=
  let searchFields := map Search.column (searchColumns P) in
  if onSearchChange P then [OnSearchChange value searchFields] else [].

Definition handleFiltersChange (P : Props) (newFilters : JS.obj string)
  : list Emission :=
  if onFiltersChange P then [OnFiltersChange newFilters] else [].

Definition step (P : Props) (w : World) (ev : Event)
  : option (World * list Emission) :=
  match ev with
  | Render =>
      match tableOptions P w with
      | Some (_, w') => Some (w', [])
      | None => None
      end
  | TableSortingChange updater =>
      let newSorting := apply_updater updater (internalSorting w) in
      Some ({| heap := heap w; internalSorting := newSorting;
               rowSelection := rowSelection w |},
            if onSortingChange P then [OnSortingChange newSorting] else [])
  | TablePaginationChange updater => onPaginationChange P updater w
  | TableRowSelectionChange updater =>
      Some ({| heap := heap w; internalSorting := internalSorting w;
               rowSelection := apply_updater updater (rowSelection w) |}, [])
  | SearchChange value => Some (w, handleSearchChange P value)
  | FiltersChange newFilters => Some (w, handleFiltersChange P newFilters)
  end.

Fixpoint run (P : Props) (w : World) (evs : list Event)
  : option (World * list Emission) :=
  match evs with
  | [] => Some (w, [])
  | ev :: evs' =>
      match step P w ev with
      | None => None
      | Some (w1, out1) =>
          match run P w1 evs' with
          | None => None
          | Some (w2, out2) => Some (w2, out1 ++ out2)
          end
      end
  end.

(** The search box as [DataTableServerSide] mounts it:
    [onSearchChange={handleSearchChange}]. *)
Definition searchProps (P : Props) (columnsOfTable : list string)
  : Search.Props :=
  {| Search.tableColumns := columnsOfTable;
     Search.searchColumns := searchColumns P;
     Search.onSearchChange := true;
     Search.searchValue := searchValue P |}.

Definition forwardSearch (P : Props) (o : Search.Output) : list Emission :=
  match o with
  | Search.OnSearchChange search _ => handleSearchChange P search
  | Search.SetFilterValue _ _ => []
  end.

(** What reaches the caller's [onSearchChange] while the user drives the
    search box with [evs], and the state the search box ends in. *)
Definition searchSession (P : Props) (columnsOfTable : list string)
           (evs : list Search.Event) : Search.State * list Emission :=
  let '(s, out) := Search.session (searchProps P columnsOfTable) evs in
  (s, if (length (searchColumns P) =? 0)%nat then []
      else flat_map (forwardSearch P) out).

End ServerSide.


(** ** [DataTableActionDialog] *)

Module ActionDialog.

(** A row of the table: [row.id] and [(row.original as any).id]. *)
Record Row : Type := { id : string; original_id : string }.

(** The part of the table instance the dialog uses: the rows of the current
    row model and the row-selection state, a [Record<string, boolean>]. *)
Record Table : Type := { rows : list Row; rowSelection : gmap string bool }.

Definition isSelected (t : Table) (r : Row) : bool :=
  match rowSelection t !! id r with
  | Some true => true
  | _ => false
  end.

(** [table.getFilteredSelectedRowModel().rows] *)
Definition selectedRows (t : Table) : list Row :=
  List.filter (isSelected t) (rows t).

(** [table.toggleAllRowsSelected(false)]: the key of every row is deleted
    from the row-selection state. *)
Definition toggleAllRowsSelected_false (t : Table) : Table :=
  {| rows := rows t;
     rowSelection := fold_right (fun r m => delete (id r) m)
                                (rowSelection t) (rows t) |}.

(** How the promise returned by [onConfirm] settles. *)
Inductive Outcome : Type :=
| Resolved
| Rejected (error : string).

Record State : Type := {
  open : bool;
  loading : bool;
  table : Table;
  (** the calls of [onConfirm] whose promise has not settled yet, each with
      the ids it was given *)
  outstanding : list (list string)
}.

Inductive Output : Type :=
| LoggerInfo (message : string) (ids : list string)
| ConsoleError (message : string) (error : string)
| OnConfirm (selectedIds : list string).

(** What the dialog shows: the props it gives [ResponsiveDialog] and the two
    buttons. *)
Record View : Type := {
  dialog_open : bool;
  title_count : nat;
  trigger_disabled : bool;
  cancel_disabled : bool;
  confirm_disabled : bool;
  confirm_processing : bool
}.

Definition selectedCount (s : State) : nat := length (selectedRows (table s)).

Definition selectedIds (s : State) : list string :=
  map original_id (selectedRows (table s)).

Definition render (s : State) : View :=
  {| dialog_open := open s;
     title_count := selectedCount s;
     trigger_disabled := (selectedCount s =? 0)%nat;
     cancel_disabled := loading s;
     confirm_disabled := loading s;
     confirm_processing := loading s |}.

Inductive Event : Type :=
| OpenChange (o : bool)      (* [ResponsiveDialog] calls [onOpenChange] *)
| CancelClick
| ConfirmClick
| Settle (outcome : Outcome) (* the oldest outstanding promise settles *)
| TableChange (t : Table).   (* rows or selection change outside the dialog *)

Definition handleOpenChange (o : bool) (s : State) : State * list Output :=
  ({| open := o; loading := loading s; table := table s;
      outstanding := outstanding s |},
   if o then [LoggerInfo "Selected row IDs:" (selectedIds s)] else []).

(** [handleConfirm] up to [await onConfirm(selectedIds)]. *)
Definition handleConfirm_call (s : State) : State * list Output :=
  ({| open := open s; loading := true; table := table s;
      outstanding := outstanding s ++ [selectedIds s] |},
   [LoggerInfo "Confirming action for IDs:" (selectedIds s);
    OnConfirm (selectedIds s)]).

(** [handleConfirm] from the settling of the promise: the rest of the [try]
    block or the [catch] block, then the [finally] block. *)
Definition handleConfirm_settled (outcome : Outcome) (s : State)
  : State * list Output :=
  match outcome with
  | Resolved =>
      ({| open := false; loading := false;
          table := toggleAllRowsSelected_false (table s);
          outstanding := tail (outstanding s) |}, [])
  | Rejected error =>
      ({| open := open s; loading := false; table := table s;
          outstanding := tail (outstanding s) |},
       [ConsoleError "Action failed:" error])
  end.

(** [handleConfirm], from the click to the [finally] block, when the promise
    settles with [outcome] and nothing else happens in between. *)
Definition handleConfirm (outcome : Outcome) (s : State)
  : State * list Output :=
  let '(s1, out1) := handleConfirm_call s in
  let '(s2, out2) := handleConfirm_settled outcome s1 in
  (s2, out1 ++ out2).

(** The controls answer only when they are shown and enabled. *)
Definition step (s : State) (ev : Event) : option (State * list Output) :=
  match ev with
  | OpenChange true =>
      if trigger_disabled (render s) then None
      else Some (handleOpenChange true s)
  | OpenChange false => Some (handleOpenChange false s)
  | CancelClick =>
      if open s && negb (cancel_disabled (render s))
      then Some ({| open := false; loading := loading s; table := table s;
                    outstanding := outstanding s |}, [])
      else None
  | ConfirmClick =>
      if open s && negb (confirm_disabled (render s))
      then Some (handleConfirm_call s)
      else None
  | Settle outcome =>
      match outstanding s with
      | [] => None
      | _ :: _ => Some (handleConfirm_settled outcome s)
      end
  | TableChange t =>
      Some ({| open := open s; loading := loading s; table := t;
               outstanding := outstanding s |}, [])
  end.

Fixpoint run (s : State) (evs : list Event) : option (State * list Output) :=
  match evs with
  | [] => Some (s, [])
  | ev :: evs' =>
      match step s ev with
      | None => None
      | Some (s1, out1) =>
          match run s1 evs' with
          | None => None
          | Some (s2, out2) => Some (s2, out1 ++ out2)
          end
      end
  end.

Definition initial (t : Table) : State :=
  {| open := false; loading := false; table := t; outstanding := [] |}.

(** The calls of [onConfirm] among the outputs. *)
Definition confirmations (out : list Output) : list (list string) :=
  flat_map (fun o => match o with OnConfirm ids => [ids] | _ => [] end) out.

(** The lines written to the console's error channel. *)
Definition console_errors (out : list Output) : list string :=
  flat_map (fun o => match o with ConsoleError _ e => [e] | _ => [] end) out.

(** The busy flag counts the outstanding calls of [onConfirm]. *)
Definition busy_invariant (s : State) : Prop :=
  length (outstanding s) = if loading s then 1 else 0.

End ActionDialog.


(** ** Concrete tables used in the examples below *)

Module Examples.

Definition nameColumn : Search.SearchColumn :=
  {| Search.column := "name"; Search.label := "Name" |}.
Definition emailColumn : Search.SearchColumn :=
  {| Search.column := "email"; Search.label := "Email" |}.

(** A server-side search box over the columns [name] and [email]. *)
Definition searchBox : Search.Props :=
  {| Search.tableColumns := ["name"; "email"];
     Search.searchColumns := [nameColumn; emailColumn];
     Search.onSearchChange := true;
     Search.searchValue := EmptyString |}.

(** The user has typed [a] into the [name] box 100 time units ago. *)
Definition typing : list Search.Event :=
  [Search.HandleSearchFilter "name" "a"; Search.Advance 100].

(** The table of the README's usage example: search over [name] and
    [email], the descriptor at reference [0]. *)
Definition usersTable : ServerSide.Props :=
  {| ServerSide.pagination := 0;
     ServerSide.searchColumns := [nameColumn; emailColumn];
     ServerSide.onSortingChange := true;
     ServerSide.onSearchChange := true;
     ServerSide.onFiltersChange := false;
     ServerSide.sorting := [];
     ServerSide.searchValue := EmptyString |}.

(** The user types [a] into the [name] box and lets the window elapse. *)
Definition typed_and_settled : list Search.Event :=
  [Search.HandleSearchFilter "name" "a"; Search.Advance 300].

(** Page 3 of 5, ten rows a page. *)
Definition page3 : ServerSide.Descriptor.t :=
  {| ServerSide.Descriptor.page := 3;
     ServerSide.Descriptor.pageSize := 10;
     ServerSide.Descriptor.totalItems := 42;
     ServerSide.Descriptor.totalPages := 5;
     ServerSide.Descriptor.hasNextPage := true;
     ServerSide.Descriptor.hasPreviousPage := true |}.

Definition usersWorld : ServerSide.World :=
  {| ServerSide.heap := {[ 0 := ServerSide.ODescriptor page3 ]};
     ServerSide.internalSorting := [];
     ServerSide.rowSelection := ∅ |}.

(** The updater behind the table's [nextPage]; it leaves its argument as it
    found it. *)
Definition nextPage : ServerSide.PaginationUpdater :=
  ServerSide.FromOldPagination
    (fun old =>
       ({| ServerSide.pageIndex := ServerSide.pageIndex old + 1;
           ServerSide.pageSize := ServerSide.pageSize old |}, old)).

(** An updater that scribbles on the object it is given. *)
Definition scribble : ServerSide.PaginationUpdater :=
  ServerSide.FromOldPagination
    (fun old =>
       (old, {| ServerSide.pageIndex := 0; ServerSide.pageSize := 0 |})).

(** Two users on the page, the first one selected. *)
Definition twoUsers : ActionDialog.Table :=
  {| ActionDialog.rows :=
       [ {| ActionDialog.id := "0"; ActionDialog.original_id := "u1" |};
         {| ActionDialog.id := "1"; ActionDialog.original_id := "u2" |} ];
     ActionDialog.rowSelection := {[ "0" := true ]} |}.

(** The dialog over [twoUsers], opened and waiting for a decision. *)
Definition askingToDelete : ActionDialog.State :=
  {| ActionDialog.open := true; ActionDialog.loading := false;
     ActionDialog.table := twoUsers; ActionDialog.outstanding := [] |}.

(** The same dialog once the user has confirmed: the call is outstanding. *)
Definition deleting : ActionDialog.State :=
  {| ActionDialog.open := true; ActionDialog.loading := true;
     ActionDialog.table := twoUsers; ActionDialog.outstanding := [["u1"]] |}.

Definition deleting_log : list ActionDialog.Output :=
  [ActionDialog.LoggerInfo "Selected row IDs:" ["u1"];
   ActionDialog.LoggerInfo "Confirming action for IDs:" ["u1"];
   ActionDialog.OnConfirm ["u1"]].

(** A server-side filter bar. *)
Definition filterBar : Filters.Props :=
  {| Filters.tableColumns := []; Filters.onFiltersChange := true |}.

(** The user picks a status and a role and waits; then clears the status and
    picks it again before the window has elapsed, and waits. *)
Definition repick_status : list Filters.Event :=
  [Filters.RunTimeout;
   Filters.HandleFilterChange "status" (Filters.One "active");
   Filters.HandleFilterChange "role" (Filters.One "admin");
   Filters.FilterValuesSettle;
   Filters.RunTimeout;
   Filters.HandleFilterChange "status" (Filters.One EmptyString);
   Filters.HandleFilterChange "status" (Filters.One "active");
   Filters.FilterValuesSettle;
   Filters.RunTimeout].

Definition jan05 : Date.t := Date.Local 2024 1 5.
Definition jan10 : Date.t := Date.Local 2024 1 10.

End Examples.

(** ** What [DataTableSearch] renders *)

Module SearchView.

Import Search.

(** [x || fallback] for a string [x] that may be [undefined]. *)
Definition or_else (x : option string) (fallback : string) : string :=
  match x with
  | Some v => if JS.truthy v then v else fallback
  | None => fallback
  end.

Record Checkbox : Type := { checkbox_label : string; checked : bool }.

(** What a control is given to show: a text, or the member of
    [Object.prototype] that a read of an inherited name returned. *)
Inductive Shown : Type :=
| Text (s : string)
| PrototypeMember (name : string).

(** [o[k] || fallback] for a plain object [o] with string values. *)
Definition read_or (r : JS.Read string) (fallback : Shown) : Shown :=
  match r with
  | JS.Own v => if JS.truthy v then Text v else fallback
  | JS.Member name => PrototypeMember name
  | JS.Undefined => fallback
  end.

Record Input : Type := {
  input_key : string;
  placeholder : string;
  input_value : Shown
}.

Record View : Type := {
  checkboxes : list Checkbox;
  clear_shown : bool;
  clear_disabled : bool;
  inputs : list Input
}.

(** [value={searchFilters[column] || ""}] *)
Definition inputValue (s : State) (columnId : string) : Shown :=
  read_or (JS.read columnId (searchFilters s)) (Text EmptyString).

(** [Object.keys(searchFilters).length === 0 && globalSearch === ""] *)
Definition clearDisabled (s : State) : bool :=
  (length (JS.keys (searchFilters s)) =? 0)%nat
  && String.eqb (globalSearch s) EmptyString.

Fixpoint checkboxesFrom (active : list nat) (index : nat)
         (columns : list SearchColumn) : list Checkbox :=
  match columns with
  | [] => []
  | c :: columns' =>
      {| checkbox_label := label c; checked := JS.includes index active |}
        :: checkboxesFrom active (S index) columns'
  end.

(** The component returns [null] when no search column is configured. *)
Definition render (P : Props) (s : State) : option View :=
  if (length (searchColumns P) =? 0)%nat then None
  else
    Some
      {| checkboxes := checkboxesFrom (activeSelectedIndexes s) 0
                                      (searchColumns P);
         clear_shown := (0 <? length (activeSelectedIndexes s))%nat;
         clear_disabled := clearDisabled s;
         inputs :=
           map (fun c => {| input_key := column c;
                            placeholder := "Search " +:+ label c;
                            input_value := inputValue s (column c) |})
               (JS.filter_index
                  (fun index => JS.includes index (activeSelectedIndexes s))
                  0 (searchColumns P)) |}.

(** The calls of [onSearchChange] among the outputs. *)
Definition searches (out : list Output) : list (string * list string) :=
  flat_map (fun o => match o with
                     | OnSearchChange search columns => [(search, columns)]
                     | SetFilterValue _ _ => []
                     end) out.

(** Two selections activate the same indexes. *)
Definition same_selection (a b : list nat) : Prop :=
  forall index, JS.includes index a = JS.includes index b.

End SearchView.

(** ** What [TableFilters] shows in its controls *)

Module FiltersView.

Import Filters.

(** [getDisplayValue(filter)] for [filter.column]; [filterValues] is the prop
    and [columnFilters] what [getFilterValue] of the table's columns returns. *)
Definition getDisplayValue (P : Props) (filterValues columnFilters : JS.obj string)
           (s : State) (column : string) : SearchView.Shown :=
  if onFiltersChange P then
    SearchView.read_or (JS.read column (localFilterValues s))
      (SearchView.read_or (JS.read column filterValues)
                          (SearchView.Text EmptyString))
  else
    SearchView.Text
      (if existsb (String.eqb column) (tableColumns P)
       then SearchView.or_else (JS.get column columnFilters) EmptyString
       else EmptyString).

(** [getDateRangeValue(filter)] for [filter.column]; [parse] is
    [new Date(...)] on the strings the caller keeps in [filterValues].  The
    reads are those of own keys: a date column named as a member of
    [Object.prototype] and never picked is not covered. *)
Definition getDateRangeValue (P : Props) (parse : string -> Date.t)
           (filterValues : JS.obj string) (s : State) (column : string)
  : DateRange :=
  if onFiltersChange P then
    match JS.get column (localDateRangeValues s) with
    | Some range => range
    | None =>
        let startDate :=
          SearchView.or_else (JS.get (column +:+ "Start") filterValues)
                             EmptyString in
        let endDate :=
          SearchView.or_else (JS.get (column +:+ "End") filterValues)
                             EmptyString in
        if JS.truthy startDate && JS.truthy endDate
        then {| from := Some (parse startDate); to := Some (parse endDate) |}
        else {| from := None; to := None |}
    end
  else {| from := None; to := None |}.

(** Every value of the object is a non-empty string. *)
Definition no_empty_value (o : JS.obj string) : Prop :=
  forall k v, In (k, v) o -> v <> EmptyString.

(** A range that lacks a bound. *)
Definition partial (r : DateRange) : Prop := from r = None \/ to r = None.

(** The user picks the range [r] for column [c] in a freshly mounted filter
    bar, waits, and the parent renders again. *)
Definition pick_and_wait (c : string) (r : DateRange) : list Event :=
  [RunTimeout; HandleDateRangeChange c r; DateRangeValuesSettle; RunTimeout;
   ParentRender; RunTimeout].

(** No select filter kept or waiting anywhere in the state has an empty
    value. *)
Definition values_kept_nonempty (s : State) : Prop :=
  no_empty_value (localFilterValues s)
  /\ no_empty_value (Debounce.stable (debouncedFilterValues s))
  /\ (forall v r, Debounce.pending (debouncedFilterValues s) = Some (v, r) ->
                  no_empty_value v)
  /\ Forall no_empty_value (timeouts s).

(** [isUpdatingRef] is up exactly while one timeout is waiting. *)
Definition one_timeout (s : State) : Prop :=
  (isUpdatingRef s = true /\ exists filters, timeouts s = [filters])
  \/ (isUpdatingRef s = false /\ timeouts s = []).

End FiltersView.

(** ** More of [DataTableServerSide] and [DataTableActionDialog] *)

Module Observations.

(** The sortings passed to [onSortingChange], in order. *)
Definition sortings (out : list ServerSide.Emission)
  : list ServerSide.SortingState :=
  flat_map (fun e => match e with
                     | ServerSide.OnSortingChange s => [s]
                     | _ => []
                     end) out.

(** A search of the search box as the wrapper passes it on. *)
Definition forwarded (P : ServerSide.Props) (e : string * list string)
  : ServerSide.Emission :=
  ServerSide.OnSearchChange e.1
    (map Search.column (ServerSide.searchColumns P)).

Definition is_table_change (ev : ActionDialog.Event) : bool :=
  match ev with
  | ActionDialog.TableChange _ => true
  | _ => false
  end.

(** The table is left alone while the dialog is driven by [evs]. *)
Definition table_untouched (evs : list ActionDialog.Event) : Prop :=
  forallb (fun ev => negb (is_table_change ev)) evs = true.

(** An open dialog has something selected. *)
Definition open_with_selection (s : ActionDialog.State) : Prop :=
  ActionDialog.open s = true ->
  ActionDialog.selectedRows (ActionDialog.table s) <> [].

(** A client-side search box over [name] and [email]. *)
Definition clientSearchBox : Search.Props :=
  {| Search.tableColumns := ["name"];
     Search.searchColumns := [Examples.nameColumn; Examples.emailColumn];
     Search.onSearchChange := false;
     Search.searchValue := EmptyString |}.

(** A client-side filter bar over a table with a [status] column. *)
Definition clientFilterBar : Filters.Props :=
  {| Filters.tableColumns := ["status"]; Filters.onFiltersChange := false |}.

End Observations.

(** ** Inputs at the edge of the platform's types *)

Module EdgeCases.

(** Page [10^16] of a very long table. *)
Definition page_1e16 : ServerSide.Descriptor.t :=
  ServerSide.Descriptor.with_page (10 ^ 16)%Z Examples.page3.

(** The last day of the year 999 and a day of the year 12345. *)
Definition dec31_999 : Date.t := Date.Local 999 12 31.
Definition feb03_12345 : Date.t := Date.Local 12345 2 3.

End EdgeCases.

(** * Properties *)

(** ** The debounced propagator *)

Module DebounceFacts.

Section Propagator.
Context {V : Type}.
Implicit Types (p : Debounce.t V) (v : V).

Lemma advance_window dt p :
  Debounce.window (Debounce.advance dt p).1 = Debounce.window p.
Proof.
  unfold Debounce.advance.
  destruct (Debounce.pending p) as [[v r]|]; [|done].
  by destruct (r <=? dt)%nat.
Qed.

(** A countdown that has not run out notifies nobody and leaves the stable
    value as it was. *)
Lemma advance_early dt p v r :
  Debounce.pending p = Some (v, r) -> dt < r ->
  (Debounce.advance dt p).2 = false
  /\ Debounce.stable (Debounce.advance dt p).1 = Debounce.stable p.
Proof.
  intros Hp Hlt. unfold Debounce.advance. rewrite Hp.
  destruct (Nat.leb_spec r dt); [lia | done].
Qed.

(** A countdown that runs out promotes its value and notifies once. *)
Lemma advance_late dt p v r :
  Debounce.pending p = Some (v, r) -> r <= dt ->
  Debounce.advance dt p
  = ({| Debounce.window := Debounce.window p; Debounce.stable := v;
        Debounce.pending := None |}, true).
Proof.
  intros Hp Hle. unfold Debounce.advance. rewrite Hp.
  destruct (Nat.leb_spec r dt); [done | lia].
Qed.

End Propagator.

End DebounceFacts.

(** ** JavaScript objects: reading after writing *)

Module JSFacts.

Import JS.

Lemma append_cons (c : ascii) (a b : string) :
  String c a +:+ b = String c (a +:+ b).
Proof. reflexivity. Qed.

Lemma length_append (a b : string) :
  String.length (a +:+ b) = String.length a + String.length b.
Proof.
  induction a as [|c a IH]; [done|].
  rewrite append_cons. simpl. by rewrite IH.
Qed.

Lemma append_inv_tail (x a b : string) : a +:+ x = b +:+ x -> a = b.
Proof.
  revert b. induction a as [|c a IH]; intros [|c' b] H.
  - done.
  - apply (f_equal String.length) in H.
    rewrite !length_append in H. simpl in H. lia.
  - apply (f_equal String.length) in H.
    rewrite !length_append in H. simpl in H. lia.
  - rewrite !append_cons in H. injection H as -> H. f_equal. by apply IH.
Qed.

(** The last character of [a +:+ b] is the one of [b], if [b] has one. *)
Lemma last_char_append (a : string) (c : ascii) (b : string) :
  last_char (a +:+ String c b) = last_char (String c b).
Proof.
  induction a as [|d a IH]; [done|].
  rewrite append_cons.
  change (last_char (String d (a +:+ String c b)))
    with (match a +:+ String c b with
          | EmptyString => Some d
          | _ => last_char (a +:+ String c b)
          end).
  rewrite <- IH. destruct a; reflexivity.
Qed.

Lemma Start_is_not_End (c c' : string) : c +:+ "Start" <> c' +:+ "End".
Proof.
  intros H. apply (f_equal last_char) in H.
  rewrite (last_char_append c "S" "tart") in H.
  rewrite (last_char_append c' "E" "nd") in H.
  discriminate H.
Qed.

Lemma all_digits_append_false (c suffix : string) :
  all_digits suffix = false -> all_digits (c +:+ suffix) = false.
Proof.
  intros H. induction c as [|a c IH]; [done|].
  rewrite append_cons. simpl. rewrite IH. apply andb_false_r.
Qed.

Lemma array_index_not_digits (k : string) :
  all_digits k = false -> array_index k = None.
Proof. intros H. unfold array_index. destruct k; [done|]. by rewrite H. Qed.

Lemma array_index_Start (c : string) : array_index (c +:+ "Start") = None.
Proof. by apply array_index_not_digits, all_digits_append_false. Qed.

Lemma array_index_End (c : string) : array_index (c +:+ "End") = None.
Proof. by apply array_index_not_digits, all_digits_append_false. Qed.

Section Objects.
Context {V : Type}.
Implicit Types (o : obj V) (k : string) (v : V).

Lemma get_to_map k o : get k o = to_map o !! k.
Proof.
  unfold to_map. induction o as [|[k' v'] o IH]; simpl; [done|].
  destruct (String.eqb_spec k k') as [->|Hne].
  - by rewrite lookup_insert_eq.
  - by rewrite lookup_insert_ne.
Qed.

Lemma has_false k o : has k o = false <-> to_map o !! k = None.
Proof.
  unfold has. rewrite get_to_map. by destruct (to_map o !! k).
Qed.

Lemma has_true k o : has k o = true <-> is_Some (to_map o !! k).
Proof.
  unfold has. rewrite get_to_map.
  destruct (to_map o !! k); split; (done || eauto || by intros [? ?]).
Qed.

Lemma to_map_replace k v o :
  is_Some (to_map o !! k) -> to_map (replace k v o) = <[k:=v]> (to_map o).
Proof.
  unfold to_map. induction o as [|[k' v'] o IH]; simpl.
  - rewrite lookup_empty. by intros [? ?].
  - destruct (String.eqb_spec k k') as [->|Hne]; simpl.
    + intros _. by rewrite insert_insert_eq.
    + rewrite lookup_insert_ne by done. intros Hk.
      rewrite IH by done. by apply insert_insert_ne.
Qed.

Lemma to_map_place_index n k v o :
  to_map o !! k = None -> to_map (place_index n k v o) = <[k:=v]> (to_map o).
Proof.
  unfold to_map. induction o as [|[k' v'] o IH]; simpl; [done|].
  intros Hk.
  assert (Hne : k' <> k) by (intros ->; by rewrite lookup_insert_eq in Hk).
  rewrite lookup_insert_ne in Hk by done.
  destruct (array_index k') as [n'|]; [|done].
  destruct (n <? n')%N; [done|]. simpl.
  rewrite IH by done. by apply insert_insert_ne.
Qed.

Lemma to_map_snoc k v o :
  to_map o !! k = None -> to_map (o ++ [(k, v)]) = <[k:=v]> (to_map o).
Proof.
  unfold to_map. induction o as [|[k' v'] o IH]; simpl; [done|].
  intros Hk.
  assert (Hne : k' <> k) by (intros ->; by rewrite lookup_insert_eq in Hk).
  rewrite lookup_insert_ne in Hk by done.
  rewrite IH by done. by apply insert_insert_ne.
Qed.

(** Writing a key is an insertion into the mapping, wherever the key lands
    in the order of the keys. *)
Lemma to_map_set k v o : to_map (set k v o) = <[k:=v]> (to_map o).
Proof.
  unfold set. destruct (has k o) eqn:Hhas.
  - by apply to_map_replace, has_true.
  - apply has_false in Hhas.
    destruct (array_index k); [by apply to_map_place_index|].
    by apply to_map_snoc.
Qed.

Lemma get_set_eq k v o : get k (set k v o) = Some v.
Proof. by rewrite get_to_map, to_map_set, lookup_insert_eq. Qed.

Lemma get_set_ne k k' v o : k <> k' -> get k' (set k v o) = get k' o.
Proof.
  intros Hne. by rewrite !get_to_map, to_map_set, lookup_insert_ne.
Qed.

Lemma keys_replace k v o : keys (replace k v o) = keys o.
Proof.
  unfold keys. induction o as [|[k' v'] o IH]; simpl; [done|].
  destruct (String.eqb k k'); simpl; [done | by rewrite IH].
Qed.

Lemma keys_place_index n k v o :
  Permutation (keys (place_index n k v o)) (k :: keys o).
Proof.
  unfold keys. induction o as [|[k' v'] o IH]; simpl; [done|].
  destruct (array_index k') as [n'|]; [|done].
  destruct (n <? n')%N; [done|]. simpl.
  rewrite IH. apply perm_swap.
Qed.

Lemma keys_snoc k v o : Permutation (keys (o ++ [(k, v)])) (k :: keys o).
Proof.
  unfold keys. rewrite map_app. simpl. by rewrite Permutation_app_comm.
Qed.

Lemma not_in_keys k o : to_map o !! k = None <-> ~ In k (keys o).
Proof.
  unfold to_map, keys. induction o as [|[k' v'] o IH]; simpl.
  - rewrite lookup_empty. tauto.
  - destruct (decide (k' = k)) as [->|Hne].
    + rewrite lookup_insert_eq. split; [done | tauto].
    + rewrite lookup_insert_ne by done. rewrite IH. tauto.
Qed.

(** Writing keeps the keys of an object distinct. *)
Lemma set_NoDup k v o : NoDup (keys o) -> NoDup (keys (set k v o)).
Proof.
  intros Hnd. unfold set. destruct (has k o) eqn:Hhas.
  - by rewrite keys_replace.
  - apply has_false, not_in_keys in Hhas.
    assert (Hcons : NoDup (k :: keys o)).
    { apply NoDup_cons. split; [by rewrite list_elem_of_In | done]. }
    destruct (array_index k).
    + by rewrite keys_place_index.
    + by rewrite keys_snoc.
Qed.

Lemma get_In k v o : get k o = Some v -> In (k, v) o.
Proof.
  induction o as [|[k' v'] o IH]; simpl; [done|].
  destruct (String.eqb_spec k k') as [->|Hne].
  - intros [= ->]. by left.
  - intros H. right. by apply IH.
Qed.

Lemma spread_cons k v (a b : obj V) :
  spread a ((k, v) :: b) = spread (set k v a) b.
Proof. reflexivity. Qed.

Lemma spread_keeps k (a b : obj V) :
  ~ In k (keys b) -> get k (spread a b) = get k a.
Proof.
  revert a. induction b as [|[k' v'] b IH]; intros a Hk; [done|].
  rewrite spread_cons. simpl in Hk. rewrite IH by tauto.
  apply get_set_ne. intros ->. tauto.
Qed.

(** In [{ ...a, ...b }] the entries of [b] win. *)
Lemma spread_get k v (a b : obj V) :
  NoDup (keys b) -> get k b = Some v -> get k (spread a b) = Some v.
Proof.
  revert a. induction b as [|[k' v'] b IH]; intros a Hnd Hget; [done|].
  rewrite spread_cons. simpl in Hnd, Hget.
  apply NoDup_cons in Hnd as [Hk' Hnd].
  destruct (String.eqb_spec k k') as [->|Hne].
  - injection Hget as ->.
    rewrite list_elem_of_In in Hk'.
    rewrite (spread_keeps k' (set k' v a) b Hk'). apply get_set_eq.
  - by apply IH.
Qed.

Lemma set_empty k v : set k v ([] : obj V) = [(k, v)].
Proof. unfold set. simpl. by destruct (array_index k). Qed.

Lemma set_fresh k v o :
  has k o = false -> array_index k = None -> set k v o = o ++ [(k, v)].
Proof. intros Hhas Hindex. unfold set. by rewrite Hhas, Hindex. Qed.

End Objects.

(** Facts about objects that [auto] may use. *)
Create HintDb js_obj.
#[global] Hint Resolve set_NoDup get_set_eq array_index_Start array_index_End
  : js_obj.

Lemma two_date_keys (c a b : string) :
  set (c +:+ "End") b (set (c +:+ "Start") a [])
  = [(c +:+ "Start", a); (c +:+ "End", b)].
Proof.
  rewrite set_empty. rewrite set_fresh; [done| |auto with js_obj].
  unfold has. simpl.
  destruct (String.eqb_spec (c +:+ "End") (c +:+ "Start")) as [Heq|]; [|done].
  symmetry in Heq. by apply Start_is_not_End in Heq.
Qed.

End JSFacts.

(** ** Dates in the form [YYYY-MM-DD] *)

Module DateFacts.

Import Date.

Lemma decimal_four_digits (y : N) :
  (1000 <= y <= 9999)%N -> four_digits (decimal y) = true.
Proof.
  intros Hy.
  assert (Hall : forallb (fun n => four_digits (decimal (N.of_nat n)))
                         (seq (N.to_nat 1000) (N.to_nat 9000)) = true)
    by (vm_compute; reflexivity).
  rewrite forallb_forall in Hall.
  rewrite <- (N2Nat.id y). apply Hall, in_seq. lia.
Qed.

Lemma two_digit_two_digits (n : N) :
  (1 <= n <= 31)%N -> two_digits (two_digit n) = true.
Proof.
  intros Hn.
  assert (Hall : forallb (fun n => two_digits (two_digit (N.of_nat n)))
                         (seq 1 31) = true)
    by (vm_compute; reflexivity).
  rewrite forallb_forall in Hall.
  rewrite <- (N2Nat.id n). apply Hall, in_seq. lia.
Qed.

Lemma dashed_is_YYYY_MM_DD (y m d : string) :
  four_digits y = true -> two_digits m = true -> two_digits d = true ->
  is_YYYY_MM_DD (y +:+ "-" +:+ m +:+ "-" +:+ d) = true.
Proof.
  destruct y as [|y1 [|y2 [|y3 [|y4 [|? ?]]]]]; try discriminate.
  destruct m as [|m1 [|m2 [|? ?]]]; try discriminate.
  destruct d as [|d1 [|d2 [|? ?]]]; try discriminate.
  cbv [four_digits two_digits forallb]. rewrite !andb_true_r.
  intros (Hy1 & (Hy2 & (Hy3 & Hy4)%andb_prop)%andb_prop)%andb_prop.
  intros (Hm1 & Hm2)%andb_prop (Hd1 & Hd2)%andb_prop.
  cbv [is_YYYY_MM_DD String.append list_ascii_of_string forallb].
  rewrite Hy1, Hy2, Hy3, Hy4, Hm1, Hm2, Hd1, Hd2. reflexivity.
Qed.

Lemma year_of_era_positive (y : Z) : (0 < y)%Z -> year_of_era y = Z.to_N y.
Proof.
  intros Hy. unfold year_of_era. destruct (Z.leb_spec y 0); [lia | done].
Qed.

(** A date with a four-digit year is written in the form [YYYY-MM-DD]. *)
Lemma toLocaleDateString_enCA_form (d : Date.t) :
  four_digit_year d -> is_YYYY_MM_DD (toLocaleDateString_enCA d) = true.
Proof.
  destruct d as [|y m dd]; [done|]. intros (Hy & Hm & Hd). simpl.
  rewrite year_of_era_positive by lia.
  apply dashed_is_YYYY_MM_DD.
  - apply decimal_four_digits. lia.
  - apply two_digit_two_digits. lia.
  - by apply two_digit_two_digits.
Qed.

End DateFacts.

(** ** [DataTableSearch]: which emissions wait for the debounce *)

Module SearchFacts.

Import Search.

Lemma run_app P s evs1 evs2 :
  run P s (evs1 ++ evs2)
  = let '(s1, out1) := run P s evs1 in
    let '(s2, out2) := run P s1 evs2 in
    (s2, out1 ++ out2).
Proof.
  revert s. induction evs1 as [|ev evs1 IH]; intros s; simpl.
  - by destruct (run P s evs2).
  - destruct (step P s ev) as [s1 out1]. rewrite IH.
    destruct (run P s1 evs1) as [s2 out2].
    destruct (run P s2 evs2) as [s3 out3].
    by rewrite app_assoc.
Qed.

(** An edit followed by less than a window of idle time emits nothing and
    keeps the window and the stable value. *)
Lemma edit_then_wait P s columnId value dt :
  dt < Debounce.window (debouncedSearchFilters s) ->
  let r := run P s [HandleSearchFilter columnId value; Advance dt] in
  r.2 = []
  /\ Debounce.window (debouncedSearchFilters r.1)
     = Debounce.window (debouncedSearchFilters s)
  /\ Debounce.stable (debouncedSearchFilters r.1)
     = Debounce.stable (debouncedSearchFilters s).
Proof.
  intros Hdt. cbn [run step].
  set (d := debouncedSearchFilters (handleSearchFilter columnId value s)).
  assert (Hp : Debounce.pending d
               = Some (JS.set columnId value (searchFilters s),
                       Debounce.window (debouncedSearchFilters s))) by done.
  destruct (DebounceFacts.advance_early dt d _ _ Hp Hdt) as [Hn Hs].
  pose proof (DebounceFacts.advance_window dt d) as Hw.
  destruct (Debounce.advance dt d) as [d' notified]. simpl in *. subst notified.
  simpl. by rewrite Hw, Hs.
Qed.

Lemma burst_silent P edits : forall s,
  Forall (fun e => e.2 < Debounce.window (debouncedSearchFilters s)) edits ->
  (run P s (burst edits)).2 = []
  /\ Debounce.stable (debouncedSearchFilters (run P s (burst edits)).1)
     = Debounce.stable (debouncedSearchFilters s).
Proof.
  induction edits as [|[[c v] dt] edits IH]; intros s Hall; [done|].
  inversion Hall as [|? ? Hdt Hrest]; subst. simpl in Hdt.
  change (burst (((c, v), dt) :: edits))
    with ([HandleSearchFilter c v; Advance dt] ++ burst edits).
  rewrite run_app.
  destruct (edit_then_wait P s c v dt Hdt) as (Hout & Hw & Hs).
  destruct (run P s [HandleSearchFilter c v; Advance dt]) as [s1 out1].
  simpl in Hout, Hw, Hs. subst out1.
  destruct (IH s1) as [Hout' Hs'].
  { rewrite Hw. exact Hrest. }
  destruct (run P s1 (burst edits)) as [s2 out2]. simpl in *.
  split; [done | congruence].
Qed.

(** When the window has elapsed after an edit, the effect runs once, on the
    filters as the edit left them. *)
Lemma edit_then_settle P s columnId value dt :
  Debounce.window (debouncedSearchFilters s) <= dt ->
  let r := run P s [HandleSearchFilter columnId value; Advance dt] in
  settled r.1
  /\ r.2 = searchEffect P r.1
  /\ Debounce.stable (debouncedSearchFilters r.1)
     = JS.set columnId value (searchFilters s)
  /\ activeSelectedIndexes r.1 = activeSelectedIndexes s.
Proof.
  intros Hdt. cbn [run step].
  set (d := debouncedSearchFilters (handleSearchFilter columnId value s)).
  assert (Hp : Debounce.pending d
               = Some (JS.set columnId value (searchFilters s),
                       Debounce.window (debouncedSearchFilters s))) by done.
  rewrite (DebounceFacts.advance_late dt d _ _ Hp Hdt). simpl.
  by rewrite app_nil_r.
Qed.

(** C1 (as the code has it).  Search emissions caused by edits are gated by
    the debounce: while edits arrive less than a window apart nothing is
    emitted, and once the window has elapsed after the last edit exactly one
    emission is made, carrying the first non-blank value of the settled
    filters and the active columns.  The other two paths do not wait:
    [handleClearSearch] emits the empty search with no columns at once, and
    a change of the active columns re-emits the stable search at once. *)
Theorem search_emission_paths (P : Props) (s : State) :
  onSearchChange P = true ->
  (forall edits,
      Forall (fun e => e.2 < Debounce.window (debouncedSearchFilters s)) edits ->
      (run P s (burst edits)).2 = [])
  /\ (forall columnId value dt,
         Debounce.window (debouncedSearchFilters s) <= dt ->
         let r := run P s [HandleSearchFilter columnId value; Advance dt] in
         settled r.1
         /\ r.2 = [OnSearchChange
                     (firstSearchValue
                        (JS.set columnId value (searchFilters s)))
                     (activeColumns P (activeSelectedIndexes s))])
  /\ (step P s HandleClearSearch).2 = [OnSearchChange EmptyString []]
  /\ (forall index,
         (step P s (HandleCheckboxChange index)).2
         = [OnSearchChange
              (firstSearchValue
                 (Debounce.stable (debouncedSearchFilters s)))
              (activeColumns P
                 (handleCheckboxChange index (activeSelectedIndexes s)))]).
Proof.
  intros Hserver. repeat split.
  - intros edits Hall. by apply burst_silent.
  - by destruct (edit_then_settle P s columnId value dt) as (? & _).
  - destruct (edit_then_settle P s columnId value dt) as (_ & Hout & Hst & Hact);
      [done|].
    rewrite Hout. unfold searchEffect, Debounce.currentStable.
    by rewrite Hserver, Hst, Hact.
  - simpl. by rewrite Hserver.
  - intros index. simpl. unfold searchEffect. by rewrite Hserver.
Qed.

(** The statement above at the example search box, just mounted. *)
Lemma search_emission_paths_witness :
  (run Examples.searchBox (initial Examples.searchBox)
       (burst [("name", "a", 100); ("name", "ab", 150); ("name", "abc", 299)])).2
  = [].
Proof.
  apply (search_emission_paths Examples.searchBox (initial Examples.searchBox)).
  - reflexivity.
  - repeat constructor; simpl; unfold Debounce.default_window; lia.
Defined.

(** C1 (as the spec has it) fails: with an edit still waiting for its window,
    clearing the search emits at once. *)
Lemma clear_emits_before_the_debounce_settles :
  ~ every_emission_gated Examples.searchBox.
Proof.
  intros Hall.
  destruct (Hall Examples.typing HandleClearSearch) as [H | [H | H]];
    vm_compute in H; discriminate H.
Qed.

End SearchFacts.


(** ** [DataTableServerSide]: pagination and the forwarding of searches *)

Module ServerSideFacts.

Import ServerSide.

Lemma request_eta (v : PaginationState) : request v = OnPaginationChange v.
Proof. by destruct v. Qed.

(** A fresh reference is never the one of an object already on the heap. *)
Lemma alloc_frame (o : HeapObject) (h : gmap nat HeapObject) (l : nat) :
  is_Some (h !! l) ->
  (alloc o h).1 <> l /\ (alloc o h).2 !! l = h !! l.
Proof.
  intros Hl. unfold alloc. simpl.
  assert (Hne : fresh (dom h) <> l).
  { intros Heq. apply (is_fresh (dom h)). rewrite Heq. by apply elem_of_dom. }
  split; [done | by rewrite lookup_insert_ne].
Qed.

Lemma descriptor_is_Some P w d :
  descriptor P w = Some d -> heap w !! pagination P = Some (ODescriptor d).
Proof.
  unfold descriptor. destruct (heap w !! pagination P) as [[d'|p]|]; congruence.
Qed.

(** Every handler runs when the descriptor is there, and leaves it alone. *)
Lemma step_frame P w ev d :
  descriptor P w = Some d ->
  exists w' out, step P w ev = Some (w', out)
                 /\ heap w' !! pagination P = heap w !! pagination P.
Proof.
  intros Hd. pose proof (descriptor_is_Some _ _ _ Hd) as Hl.
  assert (Hsome : is_Some (heap w !! pagination P)) by (rewrite Hl; eauto).
  destruct ev as [|u|u|u|v|f]; simpl.
  - unfold tableOptions. rewrite Hd.
    destruct (alloc_frame (OPaginationState (tablePagination d)) _ _ Hsome)
      as [_ Hsame].
    destruct (alloc _ _) as [l h]. eauto.
  - eauto.
  - unfold onPaginationChange. rewrite Hd.
    destruct (alloc_frame (OPaginationState (tablePagination d)) _ _ Hsome)
      as [Hne Hsame].
    destruct (alloc _ _) as [l h]. simpl in Hne, Hsame.
    destruct u as [v|f]; [eauto|].
    destruct (f (tablePagination d)) as [newPagination written].
    eexists _, _. split; [done|]. simpl. by rewrite lookup_insert_ne.
  - eauto.
  - eauto.
  - eauto.
Qed.

Lemma descriptor_frame P w w' :
  heap w' !! pagination P = heap w !! pagination P ->
  descriptor P w' = descriptor P w.
Proof. unfold descriptor. by intros ->. Qed.

(** C9.  The pagination descriptor is read, never written: whatever the
    table, the search box and the filters ask of the component, in any order
    and with any updater (also one that writes to the object it is handed),
    every handler runs and the object behind [pagination] is afterwards what
    it was; a page change only adds an [onPaginationChange] request to the
    emissions. *)
Theorem pagination_descriptor_read_only (P : Props) (evs : list Event) :
  forall (w : World) (d : Descriptor.t),
    descriptor P w = Some d ->
    exists w' out,
      run P w evs = Some (w', out)
      /\ heap w' !! pagination P = heap w !! pagination P
      /\ descriptor P w' = Some d.
Proof.
  induction evs as [|ev evs IH]; intros w d Hd; simpl.
  - eauto.
  - destruct (step_frame P w ev d Hd) as (w1 & out1 & Hstep & Hsame).
    rewrite Hstep.
    assert (Hd1 : descriptor P w1 = Some d)
      by (by rewrite (descriptor_frame P w w1 Hsame)).
    destruct (IH w1 d Hd1) as (w2 & out2 & Hrun & Hsame2 & Hd2).
    rewrite Hrun. eexists _, _. split; [done|]. split; [congruence | done].
Qed.

(** The statement above for a render, a next-page request and a request
    whose updater overwrites its argument. *)
Lemma pagination_descriptor_read_only_witness :
  descriptor Examples.usersTable Examples.usersWorld = Some Examples.page3
  /\ exists w' out,
      run Examples.usersTable Examples.usersWorld
          [Render; TablePaginationChange Examples.nextPage;
           TablePaginationChange Examples.scribble]
      = Some (w', out)
      /\ heap w' !! pagination Examples.usersTable
         = heap Examples.usersWorld !! pagination Examples.usersTable
      /\ descriptor Examples.usersTable w' = Some Examples.page3.
Proof.
  split; [reflexivity|].
  apply (pagination_descriptor_read_only Examples.usersTable).
  reflexivity.
Defined.

(** Below [2^53] in absolute value every integer is a number. *)
Lemma round_double_exact (z : Z) :
  (Z.abs z < JSNumber.two_53)%Z -> JSNumber.round_double z = z.
Proof.
  unfold JSNumber.two_53, JSNumber.round_double. intros Hz.
  assert (Hbits : (Z.log2 (Z.abs z) + 1 <= 53)%Z).
  { destruct (Z.eq_dec (Z.abs z) 0%Z) as [->|Hnz]; [done|].
    assert (Hlog : (Z.log2 (Z.abs z) < 53)%Z)
      by (apply Z.log2_lt_pow2; lia).
    lia. }
  apply Z.leb_le in Hbits. by rewrite Hbits.
Qed.

Lemma tablePagination_exact (d : Descriptor.t) :
  (1 <= Descriptor.page d <= JSNumber.two_53)%Z ->
  tablePagination d = {| pageIndex := Descriptor.page d - 1;
                         pageSize := Descriptor.pageSize d |}.
Proof.
  intros Hp. unfold tablePagination, JSNumber.sub.
  rewrite round_double_exact; [done|].
  unfold JSNumber.two_53 in *. lia.
Qed.

(** C4 (as the code has it).  For a descriptor whose one-based page [p] is
    an integer with [1 <= p <= 2^53], the range in which numbers are exact:
    the pagination state given to the table is the zero-based index [p - 1]
    with the page size unchanged; a page-change request is the updater's
    answer to that same zero-based state (or the new value itself), emitted
    untranslated; and the translation is undone by adding one: the page is
    the index plus 1, and a descriptor with page [i + 1] puts the table on
    index [i]. *)
Theorem pagination_round_trip (P : Props) (w : World) (d : Descriptor.t) :
  (1 <= Descriptor.page d <= JSNumber.two_53)%Z ->
  descriptor P w = Some d ->
  (exists opts w',
      tableOptions P w = Some (opts, w')
      /\ heap w' !! state_pagination opts
         = Some (OPaginationState
                   {| pageIndex := Descriptor.page d - 1;
                      pageSize := Descriptor.pageSize d |}))
  /\ (forall v, exists w',
         onPaginationChange P (NewPagination v) w
         = Some (w', [OnPaginationChange v]))
  /\ (forall f, exists w',
         onPaginationChange P (FromOldPagination f) w
         = Some (w', [OnPaginationChange
                        (f {| pageIndex := Descriptor.page d - 1;
                              pageSize := Descriptor.pageSize d |}).1]))
  /\ (0 <= pageIndex (tablePagination d))%Z
  /\ (pageIndex (tablePagination d) + 1)%Z = Descriptor.page d
  /\ (forall i,
         (0 <= i < JSNumber.two_53)%Z ->
         pageIndex (tablePagination (Descriptor.with_page (i + 1) d)) = i).
Proof.
  intros Hp Hd. pose proof (tablePagination_exact d Hp) as Hexact.
  repeat split.
  - unfold tableOptions. rewrite Hd, Hexact. unfold alloc. simpl.
    eexists _, _. split; [done|]. simpl. by rewrite lookup_insert_eq.
  - intros v. unfold onPaginationChange. rewrite Hd. simpl.
    rewrite request_eta. eauto.
  - intros f. unfold onPaginationChange. rewrite Hd, Hexact. simpl.
    destruct (f _) as [newPagination written]. simpl.
    rewrite request_eta. eauto.
  - rewrite Hexact. simpl. lia.
  - rewrite Hexact. simpl. lia.
  - intros i Hi. rewrite tablePagination_exact; simpl; lia.
Qed.

(** The statement above at page 3: the table is on index 2, and the next-page
    request asks for index 3. *)
Lemma pagination_round_trip_witness :
  pageIndex (tablePagination Examples.page3) = 2%Z
  /\ exists w',
      onPaginationChange Examples.usersTable Examples.nextPage
                         Examples.usersWorld
      = Some (w', [OnPaginationChange {| pageIndex := 3; pageSize := 10 |}]).
Proof.
  split; [reflexivity|].
  destruct (pagination_round_trip Examples.usersTable Examples.usersWorld
              Examples.page3) as (_ & _ & Hf & _).
  - unfold JSNumber.two_53. simpl. lia.
  - reflexivity.
  - exact (Hf (fun old => ({| pageIndex := pageIndex old + 1;
                              pageSize := pageSize old |}, old))).
Defined.

(** C4 (as the spec has it) fails: not for every page [p >= 1].  Page
    [10^16] is a number, [10^16 - 1] is not, and the subtraction rounds back
    to [10^16]: the table is on index [10^16]. *)
Lemma page_beyond_two_53_is_not_shifted : ~ zero_based_for_every_page.
Proof.
  intros Hall. specialize (Hall EdgeCases.page_1e16).
  assert (Hindex : pageIndex (tablePagination EdgeCases.page_1e16)
                   = (10 ^ 16)%Z) by (vm_compute; reflexivity).
  rewrite Hindex in Hall.
  assert (Hwrong : (10 ^ 16)%Z = (Descriptor.page EdgeCases.page_1e16 - 1)%Z).
  { apply Hall; [vm_compute; reflexivity | vm_compute; discriminate]. }
  vm_compute in Hwrong. discriminate Hwrong.
Qed.

(** Whatever the search box passes as columns, the caller is given every
    configured search column. *)
Lemma forwardSearch_columns P o e :
  e ∈ forwardSearch P o ->
  exists search, e = OnSearchChange search (map Search.column (searchColumns P)).
Proof.
  destruct o as [search columns|c v]; simpl; [|by intros ?%elem_of_nil].
  unfold handleSearchChange. destruct (onSearchChange P).
  - intros ->%list_elem_of_singleton. eauto.
  - by intros ?%elem_of_nil.
Qed.

(** C6 fails on the code.  With the columns [name] and [email] configured and
    only [name] active, the search for [a] reaches the caller with both
    columns. *)
Theorem search_forwarded_with_all_columns :
  let r := searchSession Examples.usersTable [] Examples.typed_and_settled in
  Search.activeColumns (searchProps Examples.usersTable [])
                       (Search.activeSelectedIndexes r.1)
  = ["name"]
  /\ r.2 = [OnSearchChange EmptyString ["name"; "email"];
            OnSearchChange "a" ["name"; "email"]].
Proof. split; reflexivity. Qed.

End ServerSideFacts.

(** ** [DataTableActionDialog]: selection gate, busy flag, outcomes *)

Module ActionDialogFacts.

Import ActionDialog.

Lemma filter_none {A : Type} (f : A -> bool) (l : list A) :
  List.filter f l = [] <-> (forall x, In x l -> f x = false).
Proof.
  induction l as [|a l IH]; simpl.
  - split; [intros _ x [] | done].
  - destruct (f a) eqn:Hfa.
    + split; [discriminate|]. intros H.
      specialize (H a (or_introl eq_refl)). congruence.
    + rewrite IH. split.
      * intros H x [<-|Hx]; [done | by apply H].
      * intros H x Hx. apply H. by right.
Qed.

(** Deleting the key of every row leaves no row's key behind. *)
Lemma deleted_keys_absent (rs : list Row) (m : gmap string bool) (r : Row) :
  In r rs -> fold_right (fun r m => delete (id r) m) m rs !! id r = None.
Proof.
  induction rs as [|a rs IH]; simpl; [done|].
  intros [->|Hin].
  - apply lookup_delete_eq.
  - destruct (decide (id a = id r)) as [Heq|Hne].
    + rewrite Heq. apply lookup_delete_eq.
    + rewrite lookup_delete_ne by done. by apply IH.
Qed.

Lemma toggleAllRowsSelected_false_selects_nothing (t : Table) :
  selectedRows (toggleAllRowsSelected_false t) = [].
Proof.
  unfold selectedRows. apply filter_none. intros r Hr.
  unfold isSelected. simpl. by rewrite deleted_keys_absent.
Qed.

Lemma selectedCount_zero (s : State) :
  (selectedCount s =? 0)%nat = true <-> selectedRows (table s) = [].
Proof.
  unfold selectedCount. rewrite Nat.eqb_eq.
  destruct (selectedRows (table s)); simpl; split; (done || lia).
Qed.

(** C7.  The trigger of the bulk action is disabled exactly when no row is
    selected: disabled when the selection is empty (then the dialog cannot be
    opened and no identifier would be passed on), enabled as soon as one row
    is selected. *)
Theorem trigger_disabled_iff_no_selection (s : State) :
  (trigger_disabled (render s) = true <-> selectedRows (table s) = [])
  /\ (trigger_disabled (render s) = false
      <-> 1 <= length (selectedRows (table s)))
  /\ (selectedRows (table s) = []
      <-> forall r, In r (rows (table s)) ->
                    rowSelection (table s) !! id r <> Some true)
  /\ (step s (OpenChange true) = None <-> selectedRows (table s) = []).
Proof.
  pose proof (selectedCount_zero s) as Hz.
  repeat split.
  - by apply Hz.
  - by apply Hz.
  - simpl. unfold selectedCount.
    destruct (selectedRows (table s)); simpl; [discriminate | lia].
  - simpl. unfold selectedCount.
    destruct (selectedRows (table s)); simpl; [lia | done].
  - unfold selectedRows. rewrite filter_none. intros H r Hr Hsel.
    specialize (H r Hr). unfold isSelected in H. by rewrite Hsel in H.
  - unfold selectedRows. rewrite filter_none. intros H r Hr.
    specialize (H r Hr). unfold isSelected.
    destruct (rowSelection (table s) !! id r) as [[|]|]; congruence.
  - simpl. destruct (selectedCount s =? 0)%nat eqn:E; [|discriminate].
    intros _. by apply Hz.
  - intros H. apply Hz in H. simpl. by rewrite H.
Qed.

Lemma step_busy_invariant s ev s' out :
  busy_invariant s -> step s ev = Some (s', out) -> busy_invariant s'.
Proof.
  unfold busy_invariant. intros Hinv Hstep.
  destruct ev as [[|]| | |outcome|t]; simpl in Hstep.
  - destruct (selectedCount s =? 0)%nat; [discriminate|].
    by injection Hstep as <- _.
  - by injection Hstep as <- _.
  - destruct (open s && negb (loading s)); [|discriminate].
    by injection Hstep as <- _.
  - destruct (open s) eqn:Ho, (loading s) eqn:Hl; simpl in Hstep;
      try discriminate.
    injection Hstep as <- _. simpl. rewrite length_app. simpl. lia.
  - destruct (outstanding s) as [|ids rest] eqn:Hout; [discriminate|].
    assert (rest = []) as ->.
    { destruct (loading s); simpl in Hinv; [|lia].
      destruct rest; [done | simpl in Hinv; lia]. }
    destruct outcome; injection Hstep as <- _; simpl; by rewrite Hout.
  - by injection Hstep as <- _.
Qed.

Lemma run_busy_invariant evs : forall s s' out,
  busy_invariant s -> run s evs = Some (s', out) -> busy_invariant s'.
Proof.
  induction evs as [|ev evs IH]; intros s s' out Hinv Hrun; simpl in Hrun.
  - by injection Hrun as <- _.
  - destruct (step s ev) as [[s1 out1]|] eqn:Hstep; [|discriminate].
    destruct (run s1 evs) as [[s2 out2]|] eqn:Hrun1; [|discriminate].
    injection Hrun as <- _.
    eapply IH; [|exact Hrun1]. by eapply step_busy_invariant.
Qed.

(** A click on Confirm in an open, idle dialog followed by the settling of
    the promise is one run of [handleConfirm]. *)
Lemma confirm_is_handleConfirm (s : State) (outcome : Outcome) :
  open s = true -> loading s = false ->
  run s [ConfirmClick; Settle outcome] = Some (handleConfirm outcome s).
Proof.
  intros Ho Hl. destruct s as [o l t outs]. simpl in *. subst.
  unfold handleConfirm. by destruct outcome, outs.
Qed.

(** C2.  When the promise of [onConfirm] resolves, the dialog is closed and
    no row is selected any more (and the busy flag is down), whatever happened
    to the dialog and the table while the call was outstanding; and confirming
    in an open, idle dialog does start such a call, with the identifiers of
    the selected rows. *)
Theorem confirm_success_clears_selection_and_closes (s : State) :
  (outstanding s <> [] ->
   exists s' out,
     step s (Settle Resolved) = Some (s', out)
     /\ selectedRows (table s') = []
     /\ selectedIds s' = []
     /\ open s' = false
     /\ dialog_open (render s') = false
     /\ loading s' = false)
  /\ (open s = true -> loading s = false -> outstanding s = [] ->
      exists s' out,
        run s [ConfirmClick; Settle Resolved] = Some (s', out)
        /\ confirmations out = [selectedIds s]
        /\ selectedRows (table s') = []
        /\ open s' = false
        /\ loading s' = false
        /\ outstanding s' = []).
Proof.
  split.
  - intros Hout. simpl.
    destruct (outstanding s) as [|ids rest]; [done|].
    eexists _, _. split; [done|]. simpl.
    unfold selectedIds. simpl.
    by rewrite toggleAllRowsSelected_false_selects_nothing.
  - intros Ho Hl Hout. destruct s as [o l t outs]. simpl in *. subst. simpl.
    eexists _, _. split; [done|]. simpl.
    by rewrite toggleAllRowsSelected_false_selects_nothing.
Qed.

(** The statement above for the dialog asking to delete the selected user. *)
Lemma confirm_success_clears_selection_and_closes_witness :
  exists s' out,
    run Examples.askingToDelete [ConfirmClick; Settle Resolved] = Some (s', out)
    /\ confirmations out = [["u1"]]
    /\ selectedRows (table s') = []
    /\ open s' = false
    /\ loading s' = false
    /\ outstanding s' = [].
Proof.
  apply (confirm_success_clears_selection_and_closes Examples.askingToDelete);
    reflexivity.
Defined.

(** C3.  When the promise of [onConfirm] rejects, the selection and the
    dialog are left as they are, the error goes to [console.error] and to
    nothing the user sees, [onConfirm] is not called again, and the busy flag
    is down: a dialog that was open and idle when the user confirmed is, after
    the rejection, in the very state it was in before. *)
Theorem confirm_failure_changes_nothing (s : State) (error : string) :
  (outstanding s <> [] ->
   exists s' out,
     step s (Settle (Rejected error)) = Some (s', out)
     /\ table s' = table s
     /\ open s' = open s
     /\ loading s' = false
     /\ console_errors out = [error]
     /\ confirmations out = []
     /\ dialog_open (render s') = dialog_open (render s)
     /\ title_count (render s') = title_count (render s)
     /\ trigger_disabled (render s') = trigger_disabled (render s))
  /\ (open s = true -> loading s = false -> outstanding s = [] ->
      run s [ConfirmClick; Settle (Rejected error)]
      = Some (s, [LoggerInfo "Confirming action for IDs:" (selectedIds s);
                  OnConfirm (selectedIds s);
                  ConsoleError "Action failed:" error])).
Proof.
  split.
  - intros Hout. simpl.
    destruct (outstanding s) as [|ids rest]; [done|].
    eexists _, _. by split.
  - intros Ho Hl Hout. destruct s as [o l t outs]. simpl in *. by subst.
Qed.

(** The statement above for the dialog asking to delete the selected user. *)
Lemma confirm_failure_changes_nothing_witness :
  run Examples.askingToDelete [ConfirmClick; Settle (Rejected "boom")]
  = Some (Examples.askingToDelete,
          [LoggerInfo "Confirming action for IDs:" ["u1"];
           OnConfirm ["u1"];
           ConsoleError "Action failed:" "boom"]).
Proof.
  apply (confirm_failure_changes_nothing Examples.askingToDelete "boom");
    reflexivity.
Defined.

(** With the invariant [Hinv] at hand: either the flag is up, where [busy]
    closes the goal, or no call is outstanding, which contradicts the
    hypothesis that one is. *)
Ltac busy_or_idle s Hinv busy :=
  destruct (loading s); [busy|];
  destruct (outstanding s); [done | simpl in Hinv; lia].

(** C8.  In every state the dialog can reach, at most one call of
    [onConfirm] is outstanding; while one is, the busy flag is up, Cancel and
    Confirm are disabled and a click on either is not answered, so no second
    call can start; starting a call raises the flag, and the settling of the
    call, resolved or rejected, lowers it and leaves no call outstanding. *)
Theorem busy_flag_excludes_second_call
        (t : Table) (evs : list Event) (s : State) (out : list Output) :
  run (initial t) evs = Some (s, out) ->
  length (outstanding s) <= 1
  /\ (outstanding s <> [] ->
      loading s = true
      /\ confirm_disabled (render s) = true
      /\ cancel_disabled (render s) = true
      /\ step s ConfirmClick = None
      /\ step s CancelClick = None)
  /\ (forall s' out',
         step s ConfirmClick = Some (s', out') ->
         loading s' = true /\ length (outstanding s') = 1)
  /\ (forall outcome s' out',
         step s (Settle outcome) = Some (s', out') ->
         loading s' = false /\ outstanding s' = []).
Proof.
  intros Hrun.
  assert (Hinv : busy_invariant s).
  { eapply run_busy_invariant; [|exact Hrun]. reflexivity. }
  unfold busy_invariant in Hinv. repeat split.
  - destruct (loading s); lia.
  - busy_or_idle s Hinv done.
  - simpl. busy_or_idle s Hinv done.
  - simpl. busy_or_idle s Hinv done.
  - simpl. busy_or_idle s Hinv ltac:(by rewrite andb_false_r).
  - simpl. busy_or_idle s Hinv ltac:(by rewrite andb_false_r).
  - simpl in H. destruct (open s && negb (loading s)); [|discriminate].
    by injection H as <- _.
  - pose proof (step_busy_invariant s ConfirmClick s' out' Hinv H) as Hinv'.
    unfold busy_invariant in Hinv'.
    simpl in H. destruct (open s && negb (loading s)); [|discriminate].
    injection H as <- _. exact Hinv'.
  - simpl in H. destruct (outstanding s); [discriminate|].
    by destruct outcome; injection H as <- _.
  - pose proof (step_busy_invariant s (Settle outcome) s' out' Hinv H) as Hinv'.
    unfold busy_invariant in Hinv'.
    simpl in H. destruct (outstanding s) as [|ids rest]; [discriminate|].
    assert (Hl : loading s' = false)
      by (by destruct outcome; injection H as <- _).
    rewrite Hl in Hinv'. by destruct (outstanding s').
Qed.

(** The statement above once the user has confirmed the deletion of the
    selected user. *)
Lemma busy_flag_excludes_second_call_witness :
  run (initial Examples.twoUsers) [OpenChange true; ConfirmClick]
  = Some (Examples.deleting, Examples.deleting_log)
  /\ loading Examples.deleting = true
  /\ step Examples.deleting ConfirmClick = None
  /\ step Examples.deleting CancelClick = None.
Proof.
  split; [reflexivity|].
  destruct (busy_flag_excludes_second_call
              Examples.twoUsers [OpenChange true; ConfirmClick]
              Examples.deleting Examples.deleting_log eq_refl)
    as (_ & Hbusy & _).
  destruct Hbusy as (Hl & _ & _ & Hconfirm & Hcancel); [discriminate|].
  by repeat split.
Defined.

End ActionDialogFacts.


(** ** [TableFilters]: what is emitted, and when *)

Module FiltersFacts.

Import Filters.

Section NoSuccessive.
Context {A : Type} (R : A -> A -> Prop).

Lemma no_successive_snoc (l : list A) (x : A) :
  no_successive R l ->
  (forall y, last l = Some y -> ~ R y x) ->
  no_successive R (l ++ [x]).
Proof.
  induction l as [|a l IH]; [done|].
  destruct l as [|b l].
  - intros _ Hlast. simpl. split; [by apply Hlast | done].
  - intros [Hab Hrest] Hlast. split; [done|].
    apply IH; [done|]. intros y Hy. apply Hlast.
    by rewrite last_cons_cons.
Qed.

Lemma no_successive_app_l (l1 l2 : list A) :
  no_successive R (l1 ++ l2) -> no_successive R l1.
Proof.
  induction l1 as [|a l1 IH]; [done|].
  destruct l1 as [|b l1]; [done|].
  intros [Hab Hrest]. split; [done | by apply IH].
Qed.

End NoSuccessive.

Lemma handleFiltersUpdate_invariant P emitted s :
  schedule_invariant emitted s ->
  schedule_invariant emitted (handleFiltersUpdate P s).
Proof.
  intros [Hno Hlast]. unfold handleFiltersUpdate.
  destruct (negb (onFiltersChange P) || isUpdatingRef s); [done|].
  destruct (String.eqb_spec (Json.stringify (allFilters s))
                            (previousFiltersRef s)) as [Heq|Hne];
    simpl; [done|].
  split; simpl; rewrite app_assoc.
  - apply no_successive_snoc; [done|].
    intros y Hy Hsame. apply Hne. rewrite <- (Hlast y Hy). by symmetry.
  - intros x. rewrite last_snoc. by intros [= ->].
Qed.

Lemma step_invariant P emitted s ev :
  schedule_invariant emitted s ->
  schedule_invariant (emitted ++ emissions (step P s ev).2) (step P s ev).1.
Proof.
  intros Hinv. destruct ev as [c v|c r| | | |]; simpl.
  - unfold handleFilterChange. destruct (onFiltersChange P); simpl.
    + by rewrite app_nil_r.
    + destruct (existsb _ _); simpl; by rewrite app_nil_r.
  - rewrite app_nil_r. unfold handleDateRangeChange.
    by destruct (onFiltersChange P).
  - destruct (Debounce.fire (debouncedFilterValues s)) as [d notified].
    simpl. rewrite app_nil_r.
    destruct notified; [by apply handleFiltersUpdate_invariant | done].
  - destruct (Debounce.fire (debouncedDateRangeValues s)) as [d notified].
    simpl. rewrite app_nil_r.
    destruct notified; [by apply handleFiltersUpdate_invariant | done].
  - destruct Hinv as [Hno Hlast].
    destruct (timeouts s) as [|filters rest] eqn:Ht; simpl.
    + rewrite app_nil_r. unfold schedule_invariant. by rewrite Ht.
    + unfold schedule_invariant. simpl. by rewrite <- app_assoc.
  - rewrite app_nil_r. by apply handleFiltersUpdate_invariant.
Qed.

Lemma run_invariant P evs : forall emitted s,
  schedule_invariant emitted s ->
  schedule_invariant (emitted ++ emissions (run P s evs).2) (run P s evs).1.
Proof.
  induction evs as [|ev evs IH]; intros emitted s Hinv; simpl.
  - by rewrite app_nil_r.
  - pose proof (step_invariant P emitted s ev Hinv) as Hstep.
    destruct (step P s ev) as [s1 out1]. simpl in Hstep.
    specialize (IH _ _ Hstep).
    destruct (run P s1 evs) as [s2 out2]. simpl in *.
    unfold emissions in *. by rewrite flat_map_app, app_assoc.
Qed.

Lemma no_successive_impl {A : Type} (R R' : A -> A -> Prop) (l : list A) :
  (forall x y, R' x y -> R x y) -> no_successive R l -> no_successive R' l.
Proof.
  intros Himpl. induction l as [|a l IH]; [done|].
  destruct l as [|b l]; [done|].
  intros [Hab Hrest]. split; [by intros ?%Himpl | by apply IH].
Qed.

Lemma mount_invariant P : schedule_invariant [] (mount P).
Proof. by apply handleFiltersUpdate_invariant. Qed.

(** What the comparison in [handleFiltersUpdate] does guarantee: no two
    successive calls of [onFiltersChange] are given filters with the same
    JSON serialisation, so successive emissions differ in a key, in a value
    or in the order of the keys. *)
Lemma successive_emissions_differ_in_serialisation
      (P : Props) (evs : list Event) :
  no_successive same_serialisation (emissions (session P evs).2)
  /\ no_successive eq (emissions (session P evs).2).
Proof.
  assert (Hno : no_successive same_serialisation
                              (emissions (session P evs).2)).
  { pose proof (run_invariant P evs [] (mount P) (mount_invariant P))
      as [Hno _].
    simpl in Hno. by apply no_successive_app_l in Hno. }
  split; [done|].
  apply (no_successive_impl same_serialisation); [|done].
  by intros x y ->.
Qed.

(** C10 fails on the code.  A status cleared and picked again within the
    debounce window moves its key behind the role's: the filters have not
    changed, their serialisation has, and the same mapping is passed to
    [onFiltersChange] a second time running. *)
Theorem same_mapping_emitted_twice :
  let out := emissions (session Examples.filterBar Examples.repick_status).2 in
  out = [ [];
          [("status", "active"); ("role", "admin")];
          [("role", "admin"); ("status", "active")] ]
  /\ same_mapping [("status", "active"); ("role", "admin")]
                  [("role", "admin"); ("status", "active")]
  /\ ~ same_serialisation [("status", "active"); ("role", "admin")]
                          [("role", "admin"); ("status", "active")]
  /\ ~ never_equal_twice Examples.filterBar.
Proof.
  assert (Hem : emissions (session Examples.filterBar Examples.repick_status).2
                = [ [];
                    [("status", "active"); ("role", "admin")];
                    [("role", "admin"); ("status", "active")] ])
    by reflexivity.
  assert (Hsame : same_mapping [("status", "active"); ("role", "admin")]
                               [("role", "admin"); ("status", "active")]).
  { unfold same_mapping, JS.to_map. simpl. by apply insert_insert_ne. }
  cbv zeta. split; [exact Hem|]. split; [exact Hsame|]. split.
  - unfold same_serialisation. vm_compute. discriminate.
  - intros Hnever. specialize (Hnever Examples.repick_status).
    rewrite Hem in Hnever. by destruct Hnever as (_ & Hdiffer & _).
Qed.

Lemma stringify_nonempty (kv : string * string) (o : JS.obj string) :
  Json.stringify (kv :: o) <> "{}".
Proof.
  unfold Json.stringify.
  assert (exists rest, Json.members (kv :: o) = String Json.dquote rest)
    as [rest ->].
  { destruct o; simpl; unfold Json.member, Json.quote;
      rewrite JSFacts.append_cons; eauto. }
  rewrite !JSFacts.append_cons. discriminate.
Qed.

Lemma dateFilters_one c f t :
  dateFilters [(c, {| from := Some f; to := Some t |})]
  = [(c +:+ "Start", Date.toLocaleDateString_enCA f);
     (c +:+ "End", Date.toLocaleDateString_enCA t)].
Proof. apply JSFacts.two_date_keys. Qed.

Lemma spread_two_date_keys (c a b : string) :
  JS.spread [] [(c +:+ "Start", a); (c +:+ "End", b)]
  = [(c +:+ "Start", a); (c +:+ "End", b)].
Proof. apply JSFacts.two_date_keys. Qed.

(** Picking one range in a fresh filter bar: the mount emits the empty
    mapping, the settled range emits its two keys. *)
Lemma pick_date_range_emissions P c f t :
  onFiltersChange P = true ->
  emissions (session P (pick_date_range c f t)).2
  = [ [];
      [(c +:+ "Start", Date.toLocaleDateString_enCA f);
       (c +:+ "End", Date.toLocaleDateString_enCA t)] ].
Proof.
  intros Hs. destruct P as [cols ofc]. simpl in Hs. subst ofc.
  unfold session, pick_date_range.
  change (mount _) with (with_refs initial true "{}" [[]]).
  cbn -[JS.set JS.spread dateFilters Json.stringify String.eqb].
  rewrite JSFacts.set_empty.
  cbn -[JS.set JS.spread dateFilters Json.stringify String.eqb].
  unfold handleFiltersUpdate, allFilters.
  cbn -[JS.set JS.spread dateFilters Json.stringify String.eqb].
  rewrite dateFilters_one, spread_two_date_keys.
  destruct (String.eqb_spec
              (Json.stringify
                 [(c +:+ "Start", Date.toLocaleDateString_enCA f);
                  (c +:+ "End", Date.toLocaleDateString_enCA t)]) "{}")
    as [Heq|_].
  { by apply stringify_nonempty in Heq. }
  reflexivity.
Qed.

(** The keys of two different columns never meet. *)
Lemma date_keys_apart (c c' : string) :
  c <> c' ->
  c +:+ "Start" <> c' +:+ "Start" /\ c +:+ "Start" <> c' +:+ "End"
  /\ c +:+ "End" <> c' +:+ "Start" /\ c +:+ "End" <> c' +:+ "End".
Proof.
  intros Hne. repeat split.
  - by intros ?%JSFacts.append_inv_tail.
  - apply JSFacts.Start_is_not_End.
  - intros Heq. symmetry in Heq. by apply JSFacts.Start_is_not_End in Heq.
  - by intros ?%JSFacts.append_inv_tail.
Qed.

Lemma dateEntry_keeps (acc : JS.obj string) (entry : string * DateRange)
      (k : string) :
  k <> entry.1 +:+ "Start" -> k <> entry.1 +:+ "End" ->
  JS.get k (dateEntry acc entry) = JS.get k acc.
Proof.
  intros Hs He. unfold dateEntry.
  destruct (from entry.2), (to entry.2); try done.
  by rewrite !JSFacts.get_set_ne.
Qed.

Lemma dateEntry_NoDup (acc : JS.obj string) (entry : string * DateRange) :
  NoDup (JS.keys acc) -> NoDup (JS.keys (dateEntry acc entry)).
Proof.
  intros Hnd. unfold dateEntry.
  destruct (from entry.2), (to entry.2); auto with js_obj.
Qed.

Lemma fold_dateEntry_NoDup (ranges : JS.obj DateRange) : forall acc,
  NoDup (JS.keys acc) -> NoDup (JS.keys (fold_left dateEntry ranges acc)).
Proof.
  induction ranges as [|entry ranges IH]; intros acc Hnd; [done|].
  simpl. by apply IH, dateEntry_NoDup.
Qed.

Lemma fold_dateEntry_keeps (ranges : JS.obj DateRange) (c : string) :
  ~ In c (JS.keys ranges) ->
  forall acc,
    JS.get (c +:+ "Start") (fold_left dateEntry ranges acc)
    = JS.get (c +:+ "Start") acc
    /\ JS.get (c +:+ "End") (fold_left dateEntry ranges acc)
       = JS.get (c +:+ "End") acc.
Proof.
  induction ranges as [|[c' r'] ranges IH]; intros Hc acc; [done|].
  simpl in Hc. simpl.
  assert (Hne : c <> c') by (intros ->; tauto).
  destruct (date_keys_apart c c' Hne) as (H1 & H2 & H3 & H4).
  destruct (IH (fun H => Hc (or_intror H)) (dateEntry acc (c', r')))
    as [-> ->].
  by rewrite !dateEntry_keeps.
Qed.

Lemma fold_dateEntry_gets (ranges : JS.obj DateRange) (c : string)
      (f t : Date.t) :
  NoDup (JS.keys ranges) ->
  In (c, {| from := Some f; to := Some t |}) ranges ->
  forall acc,
    JS.get (c +:+ "Start") (fold_left dateEntry ranges acc)
    = Some (Date.toLocaleDateString_enCA f)
    /\ JS.get (c +:+ "End") (fold_left dateEntry ranges acc)
       = Some (Date.toLocaleDateString_enCA t).
Proof.
  induction ranges as [|[c' r'] ranges IH]; intros Hnd Hin acc; [done|].
  simpl in Hnd. apply NoDup_cons in Hnd as [Hc' Hnd].
  cbn [fold_left].
  destruct Hin as [[= -> ->]|Hin].
  - rewrite list_elem_of_In in Hc'.
    destruct (fold_dateEntry_keeps ranges c Hc'
                (dateEntry acc (c, {| from := Some f; to := Some t |})))
      as [-> ->].
    unfold dateEntry. simpl. split.
    + rewrite JSFacts.get_set_ne; [apply JSFacts.get_set_eq|].
      intros Heq. symmetry in Heq. by apply JSFacts.Start_is_not_End in Heq.
    + apply JSFacts.get_set_eq.
  - by apply IH.
Qed.

Lemma handleFiltersUpdate_ranges P s :
  ranges_distinct s -> ranges_distinct (handleFiltersUpdate P s).
Proof.
  unfold handleFiltersUpdate.
  destruct (negb (onFiltersChange P) || isUpdatingRef s); [done|].
  by destruct (negb _).
Qed.

Lemma step_ranges P s ev :
  ranges_distinct s -> ranges_distinct (step P s ev).1.
Proof.
  intros (Hlocal & Hstable & Hpending).
  destruct ev as [c v|c r| | | |]; simpl.
  - unfold handleFilterChange. by destruct (onFiltersChange P).
  - unfold handleDateRangeChange. destruct (onFiltersChange P); [|done].
    assert (Hset : NoDup (JS.keys (JS.set c r (localDateRangeValues s))))
      by by apply JSFacts.set_NoDup.
    split; [done|]. split; [done|]. simpl. by intros v' r' [= <- _].
  - destruct (Debounce.fire (debouncedFilterValues s)) as [d notified].
    simpl. destruct notified; [by apply handleFiltersUpdate_ranges | done].
  - unfold Debounce.fire, Debounce.advance.
    destruct (Debounce.pending (debouncedDateRangeValues s))
      as [[v r]|] eqn:Hp; simpl.
    2: { split; [done|]. split; [done|]. simpl. rewrite Hp. by intros ? ?. }
    rewrite Nat.leb_refl. apply handleFiltersUpdate_ranges.
    split; [done|]. split; [by apply (Hpending v r) | done].
  - by destruct (timeouts s).
  - by apply handleFiltersUpdate_ranges.
Qed.

Lemma session_ranges P evs : ranges_distinct (session P evs).1.
Proof.
  unfold session.
  assert (Hmount : ranges_distinct (mount P)).
  { apply handleFiltersUpdate_ranges. repeat split; try constructor. done. }
  revert Hmount. generalize (mount P).
  induction evs as [|ev evs IH]; intros s Hs; [done|].
  simpl. pose proof (step_ranges P s ev Hs) as Hstep.
  destruct (step P s ev) as [s1 out1]. specialize (IH s1 Hstep).
  by destruct (run P s1 evs).
Qed.

(** C5 (as the code has it).  A date range of column [c] with both bounds
    set is emitted as the two keys [cStart] and [cEnd], holding the bounds as
    [toLocaleDateString] writes them for the fixed locale [en-CA], whatever
    the two dates are; the form [YYYY-MM-DD] is the form of the dates with a
    four-digit year.  Picked alone in a fresh filter bar, the range is
    emitted as exactly these two keys; in whatever state the filter bar is,
    next to select filters and other ranges, these two keys of the combined
    mapping hold the two dates as soon as the range is the stable one of its
    column. *)
Theorem date_range_emitted_as_two_dates
        (P : Props) (c : string) (f t : Date.t) :
  onFiltersChange P = true ->
  emissions (session P (pick_date_range c f t)).2
  = [ [];
      [(c +:+ "Start", Date.toLocaleDateString_enCA f);
       (c +:+ "End", Date.toLocaleDateString_enCA t)] ]
  /\ (Date.four_digit_year f ->
      Date.is_YYYY_MM_DD (Date.toLocaleDateString_enCA f) = true)
  /\ (Date.four_digit_year t ->
      Date.is_YYYY_MM_DD (Date.toLocaleDateString_enCA t) = true)
  /\ (forall evs : list Event,
         let s := (session P evs).1 in
         In (c, {| from := Some f; to := Some t |})
            (Debounce.currentStable (debouncedDateRangeValues s)) ->
         JS.get (c +:+ "Start") (allFilters s)
         = Some (Date.toLocaleDateString_enCA f)
         /\ JS.get (c +:+ "End") (allFilters s)
            = Some (Date.toLocaleDateString_enCA t)).
Proof.
  intros Hserver. split; [by apply pick_date_range_emissions|].
  split; [apply DateFacts.toLocaleDateString_enCA_form|].
  split; [apply DateFacts.toLocaleDateString_enCA_form|].
  intros evs s Hin. unfold allFilters.
  destruct (session_ranges P evs) as (_ & Hnd & _). fold s in Hnd.
  set (ranges := Debounce.currentStable (debouncedDateRangeValues s)) in *.
  destruct (fold_dateEntry_gets ranges c f t Hnd Hin []) as [Hstart Hend].
  assert (Hkeys : NoDup (JS.keys (dateFilters ranges)))
    by (apply fold_dateEntry_NoDup; constructor).
  split; by apply JSFacts.spread_get.
Qed.

(** The example of the specification: [createdAt] from 2024-01-05 to
    2024-01-10, two dates of the form [YYYY-MM-DD]. *)
Lemma date_range_emitted_as_two_dates_witness :
  emissions (session Examples.filterBar
               (pick_date_range "createdAt" Examples.jan05 Examples.jan10)).2
  = [ [];
      [("createdAtStart", "2024-01-05"); ("createdAtEnd", "2024-01-10")] ]
  /\ Date.is_YYYY_MM_DD "2024-01-05" = true
  /\ Date.is_YYYY_MM_DD "2024-01-10" = true.
Proof.
  destruct (date_range_emitted_as_two_dates
              Examples.filterBar "createdAt" Examples.jan05 Examples.jan10)
    as (Hemitted & Hfrom & Hto & _).
  - reflexivity.
  - split; [exact Hemitted|]. split.
    + apply Hfrom. simpl. lia.
    + apply Hto. simpl. lia.
Defined.

(** C5 (as the spec has it) fails: not every emitted date has the form
    [YYYY-MM-DD].  The range from the last day of the year 999 to the 3rd of
    February 12345 is emitted as [999-12-31] and [12345-02-03]. *)
Lemma years_outside_four_digits_leave_the_form :
  ~ emitted_in_iso_form Examples.filterBar.
Proof.
  intros Hall.
  specialize (Hall "createdAt" EdgeCases.dec31_999 EdgeCases.feb03_12345
                [("createdAtStart", "999-12-31");
                 ("createdAtEnd", "12345-02-03")]
                "createdAtStart" "999-12-31").
  assert (Hform : Date.is_YYYY_MM_DD "999-12-31" = true).
  { apply Hall.
    - vm_compute. right. left. reflexivity.
    - left. reflexivity. }
  vm_compute in Hform. discriminate Hform.
Qed.

End FiltersFacts.

(** ** [DataTableSearch]: the column selection, the two modes, the view *)

Module SearchMore.

Import Search SearchView.

Lemma includes_In (index : nat) (l : list nat) :
  JS.includes index l = true <-> In index l.
Proof.
  unfold JS.includes. rewrite existsb_exists. split.
  - intros (x & Hx & ->%Nat.eqb_eq). done.
  - intros H. exists index. by rewrite Nat.eqb_refl.
Qed.

Lemma includes_without (index j : nat) (l : list nat) :
  JS.includes j (List.filter (fun i => negb (i =? index)%nat) l)
  = JS.includes j l && negb (j =? index)%nat.
Proof.
  unfold JS.includes. induction l as [|x l IH]; [done|]. simpl.
  destruct (Nat.eqb_spec x index) as [->|Hx]; simpl.
  - rewrite IH. destruct (Nat.eqb_spec j index) as [->|Hj]; simpl.
    + by rewrite andb_false_r.
    + by rewrite andb_true_r.
  - rewrite IH. destruct (Nat.eqb_spec j x) as [->|Hj]; simpl; [|done].
    destruct (Nat.eqb_spec x index); [done|]. done.
Qed.

Lemma includes_with (index j : nat) (l : list nat) :
  JS.includes j (l ++ [index]) = JS.includes j l || (j =? index)%nat.
Proof. unfold JS.includes. rewrite existsb_app. simpl. by rewrite orb_false_r. Qed.

(** The clicked index changes sides; every other index stays where it is. *)
Lemma includes_toggle (index j : nat) (prev : list nat) :
  JS.includes j (handleCheckboxChange index prev)
  = if (j =? index)%nat then negb (JS.includes index prev)
    else JS.includes j prev.
Proof.
  unfold handleCheckboxChange. destruct (JS.includes index prev) eqn:Hin.
  - rewrite includes_without.
    destruct (Nat.eqb_spec j index) as [->|_]; simpl;
      [by rewrite andb_false_r | by rewrite andb_true_r].
  - rewrite includes_with.
    destruct (Nat.eqb_spec j index) as [->|_]; simpl;
      [by rewrite orb_true_r | by rewrite orb_false_r].
Qed.

Lemma filter_index_ext {A : Type} (p q : nat -> bool) (l : list A) :
  (forall i, p i = q i) ->
  forall i, JS.filter_index p i l = JS.filter_index q i l.
Proof.
  intros Hpq. induction l as [|x l IH]; intros i; [done|].
  simpl. by rewrite Hpq, IH.
Qed.

Lemma filter_index_sublist {A : Type} (p : nat -> bool) (l : list A) :
  forall i, sublist (JS.filter_index p i l) l.
Proof.
  induction l as [|x l IH]; intros i; simpl; [constructor|].
  destruct (p i); by constructor.
Qed.

Lemma activeColumns_ext (P : Props) (a b : list nat) :
  same_selection a b -> activeColumns P a = activeColumns P b.
Proof.
  intros Hab. unfold activeColumns. f_equal. by apply filter_index_ext.
Qed.

(** X1.  A click on the checkbox of a column changes the side of that column
    and of no other: an active column becomes inactive, an inactive one
    active.  A second click on the same checkbox therefore brings back the
    same active columns, although the index may have moved to the end of
    [activeSelectedIndexes]. *)
Theorem checkbox_toggles_one_column (P : Props) (index : nat) (prev : list nat) :
  (forall j,
      JS.includes j (handleCheckboxChange index prev)
      = if (j =? index)%nat then negb (JS.includes index prev)
        else JS.includes j prev)
  /\ same_selection (handleCheckboxChange index
                       (handleCheckboxChange index prev)) prev
  /\ activeColumns P (handleCheckboxChange index
                        (handleCheckboxChange index prev))
     = activeColumns P prev.
Proof.
  assert (Htwice : same_selection
                     (handleCheckboxChange index
                        (handleCheckboxChange index prev)) prev).
  { intros j. rewrite !includes_toggle, Nat.eqb_refl.
    destruct (j =? index)%nat eqn:Hj; [|done].
    apply Nat.eqb_eq in Hj as ->. by rewrite negb_involutive. }
  split; [intros j; apply includes_toggle|].
  split; [done | by apply activeColumns_ext].
Qed.

(** X2.  The active column ids sent with a search are the configured search
    columns with the inactive ones left out, in the configured order: the
    order of the clicks plays no part, two selections that activate the same
    indexes give the same ids. *)
Theorem active_columns_in_configured_order (P : Props) (a b : list nat) :
  sublist (activeColumns P a) (map column (searchColumns P))
  /\ (same_selection a b -> activeColumns P a = activeColumns P b)
  /\ length (activeColumns P a) <= length (searchColumns P).
Proof.
  assert (Hsub : sublist (activeColumns P a) (map column (searchColumns P))).
  { unfold activeColumns.
    change (map column) with (fmap (M := list) column).
    apply fmap_sublist, filter_index_sublist. }
  split; [done|]. split; [apply activeColumns_ext|].
  apply sublist_length in Hsub. by rewrite length_map in Hsub.
Qed.

Lemma filter_NoDup {A : Type} (f : A -> bool) (l : list A) :
  NoDup l -> NoDup (List.filter f l).
Proof.
  induction l as [|x l IH]; [done|].
  intros [Hx Hl]%NoDup_cons. simpl. destruct (f x); [|by apply IH].
  apply NoDup_cons. split; [|by apply IH].
  rewrite list_elem_of_In, filter_In. rewrite list_elem_of_In in Hx. tauto.
Qed.

Lemma handleCheckboxChange_NoDup (index : nat) (prev : list nat) :
  NoDup prev -> NoDup (handleCheckboxChange index prev).
Proof.
  intros Hnd. unfold handleCheckboxChange.
  destruct (JS.includes index prev) eqn:Hin.
  - by apply filter_NoDup.
  - apply NoDup_app. split; [done|]. split; [|apply NoDup_singleton].
    intros x Hx ->%list_elem_of_singleton.
    apply list_elem_of_In, includes_In in Hx. congruence.
Qed.

Lemma step_active_NoDup P s ev :
  NoDup (activeSelectedIndexes s) ->
  NoDup (activeSelectedIndexes (step P s ev).1).
Proof.
  intros Hnd. destruct ev as [c v| |index|v|dt]; simpl; try done.
  - by apply handleCheckboxChange_NoDup.
  - by destruct (Debounce.advance dt (debouncedSearchFilters s)).
Qed.

Lemma run_active_NoDup P evs : forall s,
  NoDup (activeSelectedIndexes s) ->
  NoDup (activeSelectedIndexes (run P s evs).1).
Proof.
  induction evs as [|ev evs IH]; intros s Hs; [done|].
  simpl. pose proof (step_active_NoDup P s ev Hs) as Hstep.
  destruct (step P s ev) as [s1 out1]. specialize (IH s1 Hstep).
  by destruct (run P s1 evs).
Qed.

(** X3.  Whatever the user does, no index is ever recorded twice in
    [activeSelectedIndexes]. *)
Theorem active_indexes_never_repeat (P : Props) (evs : list Event) :
  NoDup (activeSelectedIndexes (session P evs).1).
Proof.
  pose proof (run_active_NoDup P evs (initial P) (NoDup_singleton 0)) as Hrun.
  unfold session, mount. by destruct (run P (initial P) evs).
Qed.

Section OutputsOfOneKind.
Context (P : Props) (Q : Output -> Prop).
Hypothesis effect_Q : forall s, Forall Q (searchEffect P s).
Hypothesis clear_Q : forall s, Forall Q (handleClearSearch P s).2.

Lemma step_outputs s ev : Forall Q (step P s ev).2.
Proof.
  destruct ev as [c v| |index|v|dt]; simpl.
  - done.
  - apply (clear_Q s).
  - apply effect_Q.
  - done.
  - destruct (Debounce.advance dt (debouncedSearchFilters s)) as [d notified].
    simpl. destruct notified; [apply effect_Q | done].
Qed.

Lemma run_outputs evs : forall s, Forall Q (run P s evs).2.
Proof.
  induction evs as [|ev evs IH]; intros s; simpl; [done|].
  pose proof (step_outputs s ev) as Hstep.
  destruct (step P s ev) as [s1 out1]. specialize (IH s1).
  destruct (run P s1 evs) as [s2 out2]. simpl in *.
  by apply Forall_app.
Qed.

Lemma session_outputs evs : Forall Q (session P evs).2.
Proof.
  unfold session, mount. pose proof (run_outputs evs (initial P)) as Hrun.
  destruct (run P (initial P) evs) as [s out]. simpl in *.
  apply Forall_app. split; [apply effect_Q | done].
Qed.
End OutputsOfOneKind.

Lemma setFilterValue_known P c v :
  Forall (fun o => exists c' v', o = SetFilterValue c' v'
                                 /\ In c' (tableColumns P))
         (setFilterValue P c v).
Proof.
  unfold setFilterValue.
  destruct (existsb (String.eqb c) (tableColumns P)) eqn:Hex; [|done].
  apply existsb_exists in Hex as (c' & Hin & ->%String.eqb_eq).
  repeat constructor. eauto.
Qed.

Lemma flat_map_Forall {A B : Type} (Q : B -> Prop) (f : A -> list B)
      (l : list A) :
  (forall x, Forall Q (f x)) -> Forall Q (flat_map f l).
Proof.
  intros Hf. induction l as [|x l IH]; simpl; [done|].
  apply Forall_app. by split.
Qed.

(** X4.  The search box works in one mode throughout.  With [onSearchChange]
    supplied it only ever calls [onSearchChange] and never touches a column
    filter of the table; without it, it only ever sets column filters, and
    only of columns the table has. *)
Theorem search_box_keeps_to_its_mode (P : Props) (evs : list Event) :
  (onSearchChange P = true ->
   Forall (fun o => exists search columns, o = OnSearchChange search columns)
          (session P evs).2)
  /\ (onSearchChange P = false ->
      Forall (fun o => exists c v, o = SetFilterValue c v
                                   /\ In c (tableColumns P))
             (session P evs).2).
Proof.
  split; intros Hmode; apply session_outputs; intros s;
    unfold searchEffect, handleClearSearch; simpl; rewrite Hmode.
  - repeat constructor. eauto.
  - repeat constructor. eauto.
  - apply flat_map_Forall. intros kv. apply setFilterValue_known.
  - apply flat_map_Forall. intros c. apply setFilterValue_known.
Qed.

(** The statement above for a client-side search box whose table lacks the
    [email] column. *)
Lemma search_box_keeps_to_its_mode_witness :
  Forall (fun o => exists c v, o = SetFilterValue c v
                               /\ In c (tableColumns Observations.clientSearchBox))
         (session Observations.clientSearchBox
            [HandleSearchFilter "email" "x"; HandleSearchFilter "name" "a";
             Advance 300; HandleClearSearch]).2.
Proof.
  apply (search_box_keeps_to_its_mode Observations.clientSearchBox).
  reflexivity.
Defined.

Lemma find_first {A : Type} (p : A -> bool) (l : list A) :
  (JS.find p l = None /\ Forall (fun x => p x = false) l)
  \/ exists l1 x l2,
      l = l1 ++ x :: l2 /\ Forall (fun y => p y = false) l1
      /\ p x = true /\ JS.find p l = Some x.
Proof.
  induction l as [|a l IH]; simpl; [by left|].
  destruct (p a) eqn:Hpa.
  - right. exists [], a, l. by repeat split.
  - destruct IH as [[Hnone Hall]|(l1 & x & l2 & -> & Hl1 & Hx & Hfind)].
    + left. split; [done | by constructor].
    + right. exists (a :: l1), x, l2. repeat split; [|done..].
      by constructor.
Qed.

(** X5.  The search text sent to the server is the value of the first search
    box, in the order of the keys of the filters, that is not blank; boxes
    after it are not sent.  When every box is blank the text is empty. *)
Theorem search_text_is_first_non_blank (filters : JS.obj string) :
  (firstSearchValue filters = EmptyString
   /\ Forall (fun v => JS.blank v = true) (JS.values filters))
  \/ exists before after,
      JS.values filters = before ++ firstSearchValue filters :: after
      /\ Forall (fun v => JS.blank v = true) before
      /\ JS.blank (firstSearchValue filters) = false.
Proof.
  unfold firstSearchValue.
  destruct (find_first JS.trim_nonempty (JS.values filters))
    as [[-> Hall]|(l1 & x & l2 & Heq & Hl1 & Hx & ->)]; simpl.
  - left. split; [done|]. eapply Forall_impl; [exact Hall|].
    intros v Hv. unfold JS.trim_nonempty in Hv. by destruct (JS.blank v).
  - right. exists l1, l2. split; [done|]. split.
    + eapply Forall_impl; [exact Hl1|].
      intros v Hv. unfold JS.trim_nonempty in Hv. by destruct (JS.blank v).
    + unfold JS.trim_nonempty in Hx. by destruct (JS.blank x).
Qed.

(** X6.  Clearing a server-side search calls [onSearchChange] twice: at once
    with the empty text and no columns, and again when the debounce of the
    emptied filters settles, with the empty text and the active columns. *)
Theorem clear_is_emitted_twice (P : Props) (s : State) (dt : nat) :
  onSearchChange P = true ->
  Debounce.window (debouncedSearchFilters s) <= dt ->
  let r := run P s [HandleClearSearch; Advance dt] in
  r.2 = [OnSearchChange EmptyString [];
         OnSearchChange EmptyString
                        (activeColumns P (activeSelectedIndexes s))]
  /\ searchFilters r.1 = []
  /\ Debounce.stable (debouncedSearchFilters r.1) = []
  /\ settled r.1.
Proof.
  intros Hserver Hdt.
  assert (Hlate : Debounce.advance (V := JS.obj string) dt
                    (Debounce.observe [] (debouncedSearchFilters s))
                  = ({| Debounce.window :=
                          Debounce.window (debouncedSearchFilters s);
                        Debounce.stable := [];
                        Debounce.pending := None |}, true)).
  { by apply (DebounceFacts.advance_late dt
                (Debounce.observe [] (debouncedSearchFilters s)) []
                (Debounce.window (debouncedSearchFilters s))). }
  cbn [run step handleClearSearch debouncedSearchFilters].
  rewrite Hlate, Hserver. unfold searchEffect. simpl. by rewrite Hserver.
Qed.

(** The statement above at the example search box after some typing. *)
Lemma clear_is_emitted_twice_witness :
  (run Examples.searchBox (session Examples.searchBox Examples.typing).1
       [HandleClearSearch; Advance 300]).2
  = [OnSearchChange EmptyString []; OnSearchChange EmptyString ["name"]].
Proof.
  apply (clear_is_emitted_twice Examples.searchBox
           (session Examples.searchBox Examples.typing).1 300).
  - reflexivity.
  - simpl. unfold Debounce.default_window. lia.
Defined.

Lemma read_or_Own (v : string) : read_or (JS.Own v) (Text EmptyString) = Text v.
Proof. by destruct v. Qed.

(** X7.  The search boxes show what was typed at once, before anything is
    sent: after an edit the box of the edited column holds the new text
    (whatever the column is named: the edit defines an own key), the other
    boxes are unchanged, nothing is emitted, and the clear button is enabled,
    also when the text was erased again.  After a clear the clear button is
    disabled and the filters have no key left: a box is empty, unless its
    column bears a name inherited from [Object.prototype], whose member the
    read then returns. *)
Theorem boxes_show_typing_at_once
        (P : Props) (s : State) (columnId value : string) :
  inputValue (handleSearchFilter columnId value s) columnId = Text value
  /\ (forall other, other <> columnId ->
                    inputValue (handleSearchFilter columnId value s) other
                    = inputValue s other)
  /\ (step P s (HandleSearchFilter columnId value)).2 = []
  /\ clearDisabled (handleSearchFilter columnId value s) = false
  /\ (forall other,
         inputValue (handleClearSearch P s).1 other
         = if JS.inherited other then PrototypeMember other
           else Text EmptyString)
  /\ clearDisabled (handleClearSearch P s).1 = true.
Proof.
  repeat split.
  - unfold inputValue, JS.read. simpl.
    by rewrite JSFacts.get_set_eq, read_or_Own.
  - intros other Hne. unfold inputValue, JS.read. simpl.
    by rewrite JSFacts.get_set_ne.
  - unfold clearDisabled. simpl.
    pose proof (JSFacts.get_In columnId value
                  (JS.set columnId value (searchFilters s))
                  (JSFacts.get_set_eq _ _ _)) as Hin.
    destruct (JS.set columnId value (searchFilters s)); [done|]. done.
  - intros other. unfold inputValue, JS.read. simpl.
    by destruct (JS.inherited other).
Qed.

End SearchMore.

(** ** [TableFilters]: the two modes, what is emitted, what is shown *)

Module FiltersMore.

Import Filters FiltersView.

Section Objects.
Context {V : Type}.
Implicit Types (o : JS.obj V) (k : string) (v : V).

Lemma In_replace k v o kv :
  In kv (JS.replace k v o) -> kv = (k, v) \/ In kv o.
Proof.
  induction o as [|[k' v'] o IH]; simpl; [tauto|].
  destruct (String.eqb_spec k k') as [->|Hne]; simpl.
  - intros [<-|Hin]; [by left | by right; right].
  - intros [<-|Hin]; [by right; left|].
    destruct (IH Hin); [by left | by right; right].
Qed.

Lemma In_place_index n k v o kv :
  In kv (JS.place_index n k v o) -> kv = (k, v) \/ In kv o.
Proof.
  induction o as [|[k' v'] o IH]; simpl.
  - intros [<-|[]]. by left.
  - destruct (JS.array_index k') as [n'|].
    + destruct (n <? n')%N; simpl.
      * intros [<-|Hin]; [by left | by right].
      * intros [<-|Hin]; [by right; left|].
        destruct (IH Hin); [by left | by right; right].
    + simpl. intros [<-|Hin]; [by left | by right].
Qed.

(** An entry of an object after a write is the one written or was there. *)
Lemma In_set k v o kv : In kv (JS.set k v o) -> kv = (k, v) \/ In kv o.
Proof.
  unfold JS.set. destruct (JS.has k o).
  - apply In_replace.
  - destruct (JS.array_index k); [apply In_place_index|].
    rewrite in_app_iff. simpl. intros [Hin|[<-|[]]]; [by right | by left].
Qed.

Lemma In_del k o kv : In kv (JS.del k o) -> In kv o.
Proof. unfold JS.del. rewrite filter_In. tauto. Qed.

Lemma In_spread (a b : JS.obj V) kv :
  In kv (JS.spread a b) -> In kv a \/ In kv b.
Proof.
  revert a. induction b as [|[k v] b IH]; intros a; [by left|].
  rewrite JSFacts.spread_cons. intros Hin.
  destruct (IH _ Hin) as [Hset|Hb]; [|by right; right].
  destruct (In_set _ _ _ _ Hset) as [->|Ha]; [by right; left | by left].
Qed.

Lemma get_del_eq k o : JS.get k (JS.del k o) = None.
Proof.
  unfold JS.del. induction o as [|[k' v'] o IH]; simpl; [done|].
  destruct (String.eqb_spec k k') as [->|Hne]; simpl; [done|].
  by destruct (String.eqb_spec k k').
Qed.

Lemma get_del_ne k k' o : k <> k' -> JS.get k' (JS.del k o) = JS.get k' o.
Proof.
  intros Hne. unfold JS.del. induction o as [|[k0 v0] o IH]; simpl; [done|].
  destruct (String.eqb_spec k k0) as [->|Hk]; simpl.
  - destruct (String.eqb_spec k' k0); [congruence | done].
  - by rewrite IH.
Qed.

End Objects.

Lemma step_client P ev :
  onFiltersChange P = false ->
  (step P initial ev).1 = initial
  /\ Forall (fun o => exists c v, o = SetFilterValue c v
                                  /\ In c (tableColumns P))
            (step P initial ev).2.
Proof.
  intros Hclient. destruct ev as [c v|c r| | | |]; simpl.
  - unfold handleFilterChange. rewrite Hclient. simpl. split; [done|].
    destruct (existsb (String.eqb c) (tableColumns P)) eqn:Hex; [|done].
    apply existsb_exists in Hex as (c' & Hin & ->%String.eqb_eq).
    repeat constructor. eauto.
  - unfold handleDateRangeChange. by rewrite Hclient.
  - done.
  - done.
  - done.
  - unfold handleFiltersUpdate. by rewrite Hclient.
Qed.

Lemma run_client P evs :
  onFiltersChange P = false ->
  (run P initial evs).1 = initial
  /\ Forall (fun o => exists c v, o = SetFilterValue c v
                                  /\ In c (tableColumns P))
            (run P initial evs).2.
Proof.
  intros Hclient. induction evs as [|ev evs IH]; simpl; [done|].
  destruct (step_client P ev Hclient) as [Hs Hout].
  destruct (step P initial ev) as [s1 out1]. simpl in Hs, Hout. subst s1.
  destruct (run P initial evs) as [s2 out2]. simpl in *.
  destruct IH as [-> Hout2]. split; [done | by apply Forall_app].
Qed.

(** X8.  Without [onFiltersChange] the filter bar keeps no state of its own:
    whatever the user does, its state stays the initial one (a picked date
    range is dropped), [onFiltersChange] is never called, and the only thing
    it does is set the filter of a column the table has, at once. *)
Theorem client_side_filters_keep_no_state (P : Props) (evs : list Event) :
  onFiltersChange P = false ->
  (session P evs).1 = initial
  /\ emissions (session P evs).2 = []
  /\ Forall (fun o => exists c v, o = SetFilterValue c v
                                  /\ In c (tableColumns P))
            (session P evs).2.
Proof.
  intros Hclient. unfold session.
  assert (Hmount : mount P = initial).
  { unfold mount, handleFiltersUpdate. by rewrite Hclient. }
  rewrite Hmount. destruct (run_client P evs Hclient) as [Hs Hout].
  split; [done|]. split; [|done].
  induction Hout as [|o out (c & v & -> & _) _ IH]; [done | exact IH].
Qed.

(** The statement above for a pick of a status, of an unknown column and of
    a date range. *)
Lemma client_side_filters_keep_no_state_witness :
  (session Observations.clientFilterBar
     [HandleFilterChange "status" (One "active");
      HandleFilterChange "role" (One "admin");
      HandleDateRangeChange "createdAt"
        {| from := Some Examples.jan05; to := Some Examples.jan10 |};
      DateRangeValuesSettle; RunTimeout]).2
  = [SetFilterValue "status" "active"].
Proof.
  destruct (client_side_filters_keep_no_state Observations.clientFilterBar
              [HandleFilterChange "status" (One "active");
               HandleFilterChange "role" (One "admin");
               HandleDateRangeChange "createdAt"
                 {| from := Some Examples.jan05; to := Some Examples.jan10 |};
               DateRangeValuesSettle; RunTimeout] eq_refl) as (_ & _ & _).
  reflexivity.
Defined.

Lemma append_nonempty (a b : string) : b <> EmptyString -> a +:+ b <> EmptyString.
Proof.
  intros Hb Heq. apply (f_equal String.length) in Heq.
  rewrite JSFacts.length_append in Heq. destruct b; [done|]. simpl in Heq. lia.
Qed.

Lemma toLocaleDateString_enCA_nonempty (d : Date.t) :
  Date.toLocaleDateString_enCA d <> EmptyString.
Proof.
  destruct d as [|y m dd]; [done|]. simpl.
  apply append_nonempty. done.
Qed.

Lemma dateEntry_nonempty acc entry :
  no_empty_value acc -> no_empty_value (dateEntry acc entry).
Proof.
  intros Hacc. unfold dateEntry.
  destruct (from entry.2), (to entry.2); try done.
  intros k v Hin.
  apply In_set in Hin as [Heq|Hin].
  { injection Heq as _ ->. apply toLocaleDateString_enCA_nonempty. }
  apply In_set in Hin as [Heq|Hin].
  { injection Heq as _ ->. apply toLocaleDateString_enCA_nonempty. }
  by eapply Hacc.
Qed.

Lemma dateFilters_nonempty ranges : no_empty_value (dateFilters ranges).
Proof.
  unfold dateFilters.
  assert (Hnil : no_empty_value []) by (by intros k v []).
  revert Hnil. generalize (@nil (string * string)) as acc.
  induction ranges as [|entry ranges IH]; intros acc Hacc; [done|].
  simpl. by apply IH, dateEntry_nonempty.
Qed.

Lemma allFilters_nonempty s :
  no_empty_value (Debounce.stable (debouncedFilterValues s)) ->
  no_empty_value (allFilters s).
Proof.
  intros Hstable k v [Hin|Hin]%In_spread; [by eapply Hstable|].
  by eapply dateFilters_nonempty.
Qed.

Lemma handleFiltersUpdate_nonempty P s :
  values_kept_nonempty s -> values_kept_nonempty (handleFiltersUpdate P s).
Proof.
  intros (Hlocal & Hstable & Hpending & Htimeouts). unfold handleFiltersUpdate.
  destruct (negb (onFiltersChange P) || isUpdatingRef s); [done|].
  destruct (negb _); [|done].
  split; [done|]. split; [done|]. split; [done|]. simpl.
  apply Forall_app. split; [done|]. constructor; [|done].
  by apply allFilters_nonempty.
Qed.

Lemma In_assign (k v : string) (o : JS.obj string) kv :
  In kv (JS.assign k v o) -> kv = (k, v) \/ In kv o.
Proof.
  unfold JS.assign.
  destruct (String.eqb k "__proto__" && negb (JS.has k o)); [by right|].
  apply In_set.
Qed.

Lemma truthy_nonempty (v : string) : JS.truthy v = true -> v <> EmptyString.
Proof. by destruct v. Qed.

Lemma step_nonempty P s ev :
  values_kept_nonempty s ->
  values_kept_nonempty (step P s ev).1
  /\ Forall no_empty_value (emissions (step P s ev).2).
Proof.
  intros Hs. pose proof Hs as (Hlocal & Hstable & Hpending & Htimeouts).
  destruct ev as [c v|c r| | | |]; simpl.
  - unfold handleFilterChange. destruct (onFiltersChange P); simpl.
    + split; [|done].
      assert (Hnew : no_empty_value
                       (if JS.truthy (stringValue v)
                        then JS.assign c (stringValue v) (localFilterValues s)
                        else JS.del c (localFilterValues s))).
      { destruct (JS.truthy (stringValue v)) eqn:Ht.
        - intros k x Hin. apply In_assign in Hin as [Heq|Hin].
          + injection Heq as _ ->. by apply truthy_nonempty.
          + by eapply Hlocal.
        - intros k x Hin%In_del. by eapply Hlocal. }
      split; [done|]. split; [done|]. split; [|done].
      simpl. by intros v' r' [= <- _].
    + split; [done|]. by destruct (existsb _ _).
  - split; [|done]. unfold handleDateRangeChange.
    by destruct (onFiltersChange P).
  - unfold Debounce.fire, Debounce.advance.
    destruct (Debounce.pending (debouncedFilterValues s))
      as [[v r]|] eqn:Hp; simpl.
    + rewrite Nat.leb_refl. simpl. split; [|done].
      apply handleFiltersUpdate_nonempty.
      split; [done|]. split; [by apply (Hpending v r)|]. by split.
    + split; [|done]. split; [done|]. split; [done|]. split; [|done].
      simpl. rewrite Hp. by intros ? ?.
  - destruct (Debounce.fire (debouncedDateRangeValues s)) as [d notified].
    simpl. split; [|done].
    destruct notified; [by apply handleFiltersUpdate_nonempty | done].
  - destruct (timeouts s) as [|filters rest] eqn:Ht; simpl.
    + split; [|done]. unfold values_kept_nonempty. by rewrite Ht.
    + apply Forall_cons in Htimeouts as [Hf Hrest].
      split; [by repeat split | by constructor].
  - split; [by apply handleFiltersUpdate_nonempty | done].
Qed.

Lemma run_nonempty P evs : forall s,
  values_kept_nonempty s ->
  Forall no_empty_value (emissions (run P s evs).2).
Proof.
  induction evs as [|ev evs IH]; intros s Hs; simpl; [done|].
  destruct (step_nonempty P s ev Hs) as [Hs1 Hout1].
  destruct (step P s ev) as [s1 out1]. specialize (IH s1 Hs1).
  destruct (run P s1 evs) as [s2 out2]. simpl in *.
  unfold emissions in *. rewrite flat_map_app. by apply Forall_app.
Qed.

(** X9.  No value passed to [onFiltersChange] is ever the empty string: a
    select filter set to nothing is removed from the mapping instead, and
    the two date keys always hold formatted dates. *)
Theorem emitted_filters_have_no_empty_value
        (P : Props) (evs : list Event) (filters : JS.obj string)
        (key value : string) :
  In filters (emissions (session P evs).2) ->
  In (key, value) filters ->
  value <> EmptyString.
Proof.
  intros Hf Hkv.
  assert (Hmount : values_kept_nonempty (mount P)).
  { apply handleFiltersUpdate_nonempty.
    assert (Hnil : no_empty_value []) by (by intros k v []).
    split; [exact Hnil|]. split; [exact Hnil|]. by split. }
  pose proof (run_nonempty P evs (mount P) Hmount) as Hall.
  rewrite Forall_forall in Hall.
  apply (Hall filters (proj2 (list_elem_of_In _ _) Hf) key value Hkv).
Qed.

(** The statement above when a status is picked, cleared and the filters
    settle. *)
Lemma emitted_filters_have_no_empty_value_witness :
  In [("status", "active")]
     (emissions (session Examples.filterBar
                   [RunTimeout; HandleFilterChange "status" (One "active");
                    FilterValuesSettle; RunTimeout;
                    HandleFilterChange "status" (One EmptyString);
                    FilterValuesSettle; RunTimeout]).2)
  /\ "active" <> EmptyString.
Proof.
  assert (Hin : In [("status", "active")]
                   (emissions
                      (session Examples.filterBar
                         [RunTimeout;
                          HandleFilterChange "status" (One "active");
                          FilterValuesSettle; RunTimeout;
                          HandleFilterChange "status" (One EmptyString);
                          FilterValuesSettle; RunTimeout]).2))
    by (vm_compute; right; left; reflexivity).
  split; [exact Hin|].
  apply (emitted_filters_have_no_empty_value Examples.filterBar _
           [("status", "active")] "status" "active" Hin).
  left. reflexivity.
Defined.

Lemma dateFilters_partial c r : partial r -> dateFilters [(c, r)] = [].
Proof.
  destruct r as [f t]. unfold partial, dateFilters, dateEntry. simpl.
  intros [-> | ->]; [done | by destruct f].
Qed.

(** X10.  A date range that lacks a bound is not emitted: picked in a fresh
    server-side filter bar it adds no key, the combined filters are what
    they were, and [onFiltersChange] is not called beyond the call with the
    empty mapping made at mount, also when the parent renders again. *)
Theorem partial_date_range_is_not_emitted
        (P : Props) (c : string) (r : DateRange) :
  onFiltersChange P = true ->
  partial r ->
  emissions (session P (pick_and_wait c r)).2 = [ [] ]
  /\ allFilters (session P (pick_and_wait c r)).1 = []
  /\ JS.get c (localDateRangeValues (session P (pick_and_wait c r)).1)
     = Some r.
Proof.
  intros Hs Hr. destruct P as [cols ofc]. simpl in Hs. subst ofc.
  unfold session, pick_and_wait.
  change (mount _) with (with_refs initial true "{}" [[]]).
  cbn -[JS.set JS.spread dateFilters Json.stringify String.eqb].
  rewrite JSFacts.set_empty.
  cbn -[JS.set JS.spread dateFilters Json.stringify String.eqb].
  unfold handleFiltersUpdate, allFilters.
  cbn -[JS.set JS.spread dateFilters Json.stringify String.eqb].
  rewrite (dateFilters_partial c r Hr).
  change (Json.stringify (JS.spread [] [])) with "{}".
  cbn -[JS.set JS.spread dateFilters Json.stringify].
  rewrite (dateFilters_partial c r Hr).
  change (Json.stringify (JS.spread [] [])) with "{}".
  cbn -[dateFilters]. rewrite (dateFilters_partial c r Hr).
  by rewrite String.eqb_refl.
Qed.

(** The statement above for a range whose end has not been picked yet. *)
Lemma partial_date_range_is_not_emitted_witness :
  emissions (session Examples.filterBar
               (pick_and_wait "createdAt"
                  {| from := Some Examples.jan05; to := None |})).2
  = [ [] ].
Proof.
  apply (partial_date_range_is_not_emitted Examples.filterBar "createdAt"
           {| from := Some Examples.jan05; to := None |}).
  - reflexivity.
  - right. reflexivity.
Defined.

Lemma handleFiltersUpdate_one_timeout P s :
  one_timeout s -> one_timeout (handleFiltersUpdate P s).
Proof.
  intros Hs. unfold handleFiltersUpdate.
  destruct (negb (onFiltersChange P)); [done|]. simpl.
  destruct Hs as [[Hup Hto]|[Hup Hto]]; rewrite Hup; [by left|].
  destruct (negb _); [|by right].
  left. simpl. rewrite Hto. eauto.
Qed.

Lemma step_one_timeout P s ev : one_timeout s -> one_timeout (step P s ev).1.
Proof.
  intros Hs. destruct ev as [c v|c r| | | |]; simpl.
  - unfold handleFilterChange. by destruct (onFiltersChange P).
  - unfold handleDateRangeChange. by destruct (onFiltersChange P).
  - destruct (Debounce.fire (debouncedFilterValues s)) as [d notified].
    simpl. destruct notified; [by apply handleFiltersUpdate_one_timeout|done].
  - destruct (Debounce.fire (debouncedDateRangeValues s)) as [d notified].
    simpl. destruct notified; [by apply handleFiltersUpdate_one_timeout|done].
  - destruct Hs as [[Hup [f Hto]]|[Hup Hto]]; rewrite Hto; simpl.
    + by right.
    + right. by rewrite Hto.
  - by apply handleFiltersUpdate_one_timeout.
Qed.

(** X11.  At most one call of [onFiltersChange] is ever waiting in a
    timeout, and [isUpdatingRef] is up exactly while one is: a filter update
    that arrives in between is not scheduled next to it. *)
Theorem one_filter_update_in_flight (P : Props) (evs : list Event) :
  length (timeouts (session P evs).1) <= 1
  /\ (isUpdatingRef (session P evs).1 = true
      <-> timeouts (session P evs).1 <> []).
Proof.
  assert (Hone : one_timeout (session P evs).1).
  { unfold session.
    assert (Hmount : one_timeout (mount P)).
    { apply handleFiltersUpdate_one_timeout. by right. }
    revert Hmount. generalize (mount P) as s.
    induction evs as [|ev evs IH]; intros s Hs; [done|].
    simpl. pose proof (step_one_timeout P s ev Hs) as Hstep.
    destruct (step P s ev) as [s1 out1]. specialize (IH s1 Hstep).
    by destruct (run P s1 evs). }
  destruct Hone as [[Hup [f Hto]]|[Hup Hto]]; rewrite Hup, Hto; simpl.
  - split; [lia|]. by split.
  - split; [lia|]. by split.
Qed.

(** X12.  In server-side mode a select filter shows the picked value at
    once, whatever the parent still holds in [filterValues]; once the pick
    is cleared it falls back to the parent's value for that column, or to
    nothing.  The other filters show what they showed.  A column named as a
    member of [Object.prototype] differs: cleared, it shows that member; and
    for [__proto__] the assignment of the pick stores nothing (unless the
    key is an own one already), so that it shows the prototype throughout. *)
Theorem select_filter_shows_pick_at_once
        (P : Props) (filterValues columnFilters : JS.obj string) (s : State)
        (column : string) (value : ComboValue) :
  onFiltersChange P = true ->
  let s' := (handleFilterChange P column value s).1 in
  (stringValue value <> EmptyString ->
   column <> "__proto__" \/ JS.has column (localFilterValues s) = true ->
   getDisplayValue P filterValues columnFilters s' column
   = SearchView.Text (stringValue value))
  /\ (stringValue value <> EmptyString ->
      column = "__proto__" -> JS.has column (localFilterValues s) = false ->
      localFilterValues s' = localFilterValues s
      /\ getDisplayValue P filterValues columnFilters s' column
         = SearchView.PrototypeMember column)
  /\ (stringValue value = EmptyString ->
      getDisplayValue P filterValues columnFilters s' column
      = if JS.inherited column then SearchView.PrototypeMember column
        else SearchView.read_or (JS.read column filterValues)
                                (SearchView.Text EmptyString))
  /\ (forall other, other <> column ->
                    getDisplayValue P filterValues columnFilters s' other
                    = getDisplayValue P filterValues columnFilters s other).
Proof.
  intros Hserver. unfold getDisplayValue, handleFilterChange.
  rewrite Hserver. cbn [fst localFilterValues].
  split; [|split; [|split]].
  - intros Hv Hstored.
    assert (Hassign : JS.assign column (stringValue value)
                                (localFilterValues s)
                      = JS.set column (stringValue value)
                               (localFilterValues s)).
    { unfold JS.assign. destruct Hstored as [Hne| ->].
      - apply String.eqb_neq in Hne. by rewrite Hne.
      - by rewrite andb_false_r. }
    destruct (stringValue value) as [|a v] eqn:Hsv; [done|].
    cbn [JS.truthy]. rewrite Hassign. unfold JS.read.
    by rewrite JSFacts.get_set_eq.
  - intros Hv -> Hown.
    destruct (stringValue value) as [|a v] eqn:Hsv; [done|].
    cbn [JS.truthy]. unfold JS.assign. rewrite Hown. simpl.
    split; [done|].
    unfold JS.read. unfold JS.has in Hown.
    by destruct (JS.get "__proto__" (localFilterValues s)).
  - intros ->. cbn [JS.truthy]. unfold JS.read at 1.
    rewrite get_del_eq. by destruct (JS.inherited column).
  - intros other Hne. unfold JS.read.
    destruct (JS.truthy (stringValue value)).
    + unfold JS.assign.
      destruct (String.eqb column "__proto__"
                && negb (JS.has column (localFilterValues s))); [done|].
      by rewrite JSFacts.get_set_ne.
    + by rewrite get_del_ne.
Qed.

(** The statement above when a status is picked while the parent still
    holds another one, and for a filter on a column named [__proto__]. *)
Lemma select_filter_shows_pick_at_once_witness :
  getDisplayValue Examples.filterBar [("status", "inactive")] []
    (handleFilterChange Examples.filterBar "status" (One "active") initial).1
    "status"
  = SearchView.Text "active"
  /\ getDisplayValue Examples.filterBar [] []
       (handleFilterChange Examples.filterBar "__proto__" (One "x") initial).1
       "__proto__"
     = SearchView.PrototypeMember "__proto__".
Proof.
  split.
  - refine (proj1 (select_filter_shows_pick_at_once Examples.filterBar
                     [("status", "inactive")] [] initial "status"
                     (One "active") eq_refl) _ _).
    + discriminate.
    + left. discriminate.
  - refine (proj2 (proj1 (proj2
              (select_filter_shows_pick_at_once Examples.filterBar
                 [] [] initial "__proto__" (One "x") eq_refl)) _ eq_refl
              eq_refl)).
    discriminate.
Defined.

(** X13.  In server-side mode the date picker of a column shows the range
    picked last, also an empty one, and the ranges of the parent's
    [filterValues] only for a column never picked.  Without
    [onFiltersChange] a picked range changes nothing and every picker stays
    empty. *)
Theorem date_picker_shows_local_range
        (P : Props) (parse : string -> Date.t) (filterValues : JS.obj string)
        (s : State) (column : string) (range : DateRange) :
  (onFiltersChange P = true ->
   getDateRangeValue P parse filterValues
     (handleDateRangeChange P column range s) column = range
   /\ forall other, other <> column ->
        getDateRangeValue P parse filterValues
          (handleDateRangeChange P column range s) other
        = getDateRangeValue P parse filterValues s other)
  /\ (onFiltersChange P = false ->
      handleDateRangeChange P column range s = s
      /\ forall any, getDateRangeValue P parse filterValues s any
                     = {| from := None; to := None |}).
Proof.
  split; intros Hmode; unfold getDateRangeValue, handleDateRangeChange;
    rewrite Hmode; [|done].
  cbn [localDateRangeValues]. split.
  - by rewrite JSFacts.get_set_eq.
  - intros other Hne. by rewrite JSFacts.get_set_ne.
Qed.

End FiltersMore.

(** ** [DataTableServerSide]: sorting and the forwarding of searches *)

Module ServerSideMore.

Import ServerSide Observations.

Lemma sortings_app (out1 out2 : list Emission) :
  sortings (out1 ++ out2) = sortings out1 ++ sortings out2.
Proof. unfold sortings. apply flat_map_app. Qed.

Lemma step_sorting P w ev w1 out1 :
  onSortingChange P = true ->
  step P w ev = Some (w1, out1) ->
  internalSorting w1 = default (internalSorting w) (last (sortings out1)).
Proof.
  intros Hsupplied Hstep. destruct ev as [|u|u|u|v|f]; simpl in Hstep.
  - unfold tableOptions in Hstep. destruct (descriptor P w); [|done].
    destruct (alloc _ _). by injection Hstep as <- <-.
  - rewrite Hsupplied in Hstep. by injection Hstep as <- <-.
  - unfold onPaginationChange in Hstep. destruct (descriptor P w); [|done].
    destruct (alloc _ _). destruct u as [v|f].
    + by injection Hstep as <- <-.
    + destruct (f _). by injection Hstep as <- <-.
  - by injection Hstep as <- <-.
  - injection Hstep as <- <-. unfold handleSearchChange.
    by destruct (ServerSide.onSearchChange P).
  - injection Hstep as <- <-. unfold handleFiltersChange.
    by destruct (ServerSide.onFiltersChange P).
Qed.

(** X14.  The caller is always told the sorting the table shows: with
    [onSortingChange] supplied, after any sequence of table events the
    internal sorting is the sorting of the last [onSortingChange] call, and
    it is the one the component started from when no call was made. *)
Theorem internal_sorting_is_last_emitted
        (P : Props) (evs : list Event) :
  forall (w w' : World) (out : list Emission),
    onSortingChange P = true ->
    run P w evs = Some (w', out) ->
    internalSorting w' = default (internalSorting w) (last (sortings out)).
Proof.
  induction evs as [|ev evs IH]; intros w w' out Hsupplied Hrun;
    simpl in Hrun.
  - by injection Hrun as <- <-.
  - destruct (step P w ev) as [[w1 out1]|] eqn:Hstep; [|done].
    destruct (run P w1 evs) as [[w2 out2]|] eqn:Hrun1; [|done].
    injection Hrun as <- <-.
    rewrite (IH w1 w2 out2 Hsupplied Hrun1).
    rewrite (step_sorting P w ev w1 out1 Hsupplied Hstep).
    rewrite sortings_app, last_app.
    by destruct (last (sortings out2)).
Qed.

(** The statement above for two changes of the sorting around a page
    change. *)
Lemma internal_sorting_is_last_emitted_witness :
  exists w' out,
    run Examples.usersTable Examples.usersWorld
        [TableSortingChange (NewValue [{| id := "name"; desc := false |}]);
         TablePaginationChange Examples.nextPage;
         TableSortingChange
           (FromOld (fun old => {| id := "email"; desc := true |} :: old))]
    = Some (w', out)
    /\ internalSorting w' = default [] (last (sortings out))
    /\ last (sortings out) = Some [{| id := "email"; desc := true |};
                                   {| id := "name"; desc := false |}].
Proof.
  eexists _, _. split; [reflexivity|]. split; [|reflexivity].
  apply (internal_sorting_is_last_emitted Examples.usersTable
           [TableSortingChange (NewValue [{| id := "name"; desc := false |}]);
            TablePaginationChange Examples.nextPage;
            TableSortingChange
              (FromOld (fun old => {| id := "email"; desc := true |} :: old))]
           Examples.usersWorld);
    reflexivity.
Defined.

Lemma forward_all (P : Props) (out : list Search.Output) :
  ServerSide.onSearchChange P = true ->
  flat_map (forwardSearch P) out = map (forwarded P) (SearchView.searches out).
Proof.
  intros Hsupplied. induction out as [|o out IH]; [done|].
  destruct o as [search columns|c v]; simpl.
  - unfold handleSearchChange. rewrite Hsupplied. simpl. by rewrite IH.
  - exact IH.
Qed.

Lemma forward_none (P : Props) (out : list Search.Output) :
  ServerSide.onSearchChange P = false -> flat_map (forwardSearch P) out = [].
Proof.
  intros Hnone. induction out as [|o out IH]; [done|].
  destruct o as [search columns|c v]; simpl; [|exact IH].
  unfold handleSearchChange. by rewrite Hnone.
Qed.

(** X15.  Every search of the search box reaches the caller exactly once, in
    order and with its text unchanged, together with all configured search
    columns; without the caller's [onSearchChange] the searches are
    dropped. *)
Theorem searches_are_forwarded_one_to_one
        (P : Props) (columnsOfTable : list string) (evs : list Search.Event) :
  ServerSide.searchColumns P <> [] ->
  (ServerSide.onSearchChange P = true ->
   (searchSession P columnsOfTable evs).2
   = map (forwarded P)
         (SearchView.searches
            (Search.session (searchProps P columnsOfTable) evs).2))
  /\ (ServerSide.onSearchChange P = false ->
      (searchSession P columnsOfTable evs).2 = []).
Proof.
  intros Hcolumns. unfold searchSession.
  destruct (Search.session (searchProps P columnsOfTable) evs) as [s out].
  assert (Hsome : (length (ServerSide.searchColumns P) =? 0)%nat = false)
    by (by destruct (ServerSide.searchColumns P)).
  cbn [snd]. rewrite Hsome. split; intros Hmode.
  - by apply forward_all.
  - by apply forward_none.
Qed.

(** The statement above for the typing of the example. *)
Lemma searches_are_forwarded_one_to_one_witness :
  (searchSession Examples.usersTable [] Examples.typed_and_settled).2
  = [OnSearchChange EmptyString ["name"; "email"];
     OnSearchChange "a" ["name"; "email"]].
Proof.
  destruct (searches_are_forwarded_one_to_one Examples.usersTable []
              Examples.typed_and_settled) as [Hall _]; [discriminate|].
  exact (Hall eq_refl).
Defined.

End ServerSideMore.

(** ** [DataTableActionDialog]: what [onConfirm] is given *)

Module ActionDialogMore.

Import ActionDialog Observations.

Lemma step_open_with_selection s ev s' out :
  is_table_change ev = false ->
  open_with_selection s ->
  step s ev = Some (s', out) ->
  open_with_selection s'
  /\ Forall (fun ids => ids <> []) (confirmations out).
Proof.
  unfold open_with_selection. intros Hev Hs Hstep.
  destruct ev as [[|]| | |outcome|t]; simpl in Hstep, Hev; [..|done].
  - destruct (selectedCount s =? 0)%nat eqn:Hcount; [done|].
    injection Hstep as <- <-. split; [|done]. simpl. intros _.
    apply Nat.eqb_neq in Hcount. unfold selectedCount in Hcount.
    by destruct (selectedRows (table s)).
  - injection Hstep as <- <-. by split.
  - destruct (open s && negb (loading s)); [|done].
    injection Hstep as <- <-. by split.
  - destruct (open s) eqn:Ho; [|done]. destruct (loading s); [done|].
    simpl in Hstep. injection Hstep as <- <-.
    specialize (Hs eq_refl). split; [by intros _|].
    simpl. constructor; [|done]. unfold selectedIds.
    by destruct (selectedRows (table s)).
  - destruct (outstanding s); [done|].
    destruct outcome; injection Hstep as <- <-; by split.
Qed.

(** X16.  As long as the table is left alone under the dialog, [onConfirm]
    is never given an empty list, also on a retry after a failure: the
    dialog only opens with a selection, and a success closes it.  The
    handler itself has no guard: when the selection is emptied under an open
    dialog, Confirm calls [onConfirm] with the empty list. *)
Theorem onConfirm_gets_a_selection
        (t : Table) (evs : list Event) (s : State) (out : list Output) :
  table_untouched evs ->
  run (initial t) evs = Some (s, out) ->
  Forall (fun ids => ids <> []) (confirmations out)
  /\ (forall t',
         selectedRows t' = [] ->
         forall s' out',
           run s [TableChange t'; ConfirmClick] = Some (s', out') ->
           confirmations out' = [ [] ]).
Proof.
  intros Huntouched Hrun. split.
  - assert (Hinit : open_with_selection (initial t)) by done.
    revert Hinit Hrun Huntouched. generalize (initial t) as s0. revert s out.
    induction evs as [|ev evs IH]; intros s out s0 Hs0 Hrun Hun;
      simpl in Hrun.
    + by injection Hrun as <- <-.
    + destruct (step s0 ev) as [[s1 out1]|] eqn:Hstep; [|done].
      destruct (run s1 evs) as [[s2 out2]|] eqn:Hrun1; [|done].
      injection Hrun as <- <-.
      unfold table_untouched in Hun. simpl in Hun.
      apply andb_prop in Hun as [Hev Hrest].
      apply negb_true_iff in Hev.
      destruct (step_open_with_selection s0 ev s1 out1 Hev Hs0 Hstep)
        as [Hs1 Hout1].
      unfold confirmations. rewrite flat_map_app. apply Forall_app.
      split; [done|]. by eapply IH.
  - intros t' Ht' s' out' Hrun'. simpl in Hrun'.
    destruct (open s && negb (loading s)); [|done].
    injection Hrun' as <- <-. simpl. unfold selectedIds. simpl.
    by rewrite Ht'.
Qed.

(** The statement above for a confirmation that fails and is tried again. *)
Lemma onConfirm_gets_a_selection_witness :
  exists s out,
    run (initial Examples.twoUsers)
        [OpenChange true; ConfirmClick; Settle (Rejected "boom"); ConfirmClick]
    = Some (s, out)
    /\ confirmations out = [["u1"]; ["u1"]]
    /\ Forall (fun ids => ids <> []) (confirmations out).
Proof.
  eexists _, _. split; [reflexivity|]. split; [reflexivity|].
  refine (proj1 (onConfirm_gets_a_selection Examples.twoUsers
                   [OpenChange true; ConfirmClick; Settle (Rejected "boom");
                    ConfirmClick] _ _ eq_refl eq_refl)).
Defined.

End ActionDialogMore.
